(** * SwiftPay account-service: the balance ledger ([BalanceService])

    A shallow embedding of [balanceService.ts]: the three tables the
    service creates ([balances], [balance_operations],
    [balance_snapshots]), the SQL statements it issues against them, and
    the public operations [updateBalance], [transferBalance],
    [reserveBalance], [releaseReservedBalance] and [createDailySnapshot],
    each of which runs inside [BEGIN] ... [COMMIT] with [ROLLBACK] in
    its [catch] block.

    Modelling conventions.
    - Money.  Every monetary column is [DECIMAL(20,8)] and the service
      computes with [decimal.js].  A [Decimal] is held here as the
      integer number of 10^-8 units, so that [plus], [minus], [lt],
      [lte] and [isZero] are exact integer operations.  Parsing the
      request string, [NaN], infinities and amounts with more than eight
      fractional digits are outside the model.
    - Storage.  A call of [client.query] either runs the statement or
      rejects (connection loss, a violated column constraint, a numeric
      overflow, ...).  Which statement of a transaction rejects is given
      by an oracle [faults : nat -> bool] over the statement index; the
      oracle [no_faults] is the run in which storage never rejects.
      Taking the connection from the pool and [ROLLBACK] itself are
      taken to succeed; logging and audit calls have no effect on the
      tables and are left out.
    - Time and identifiers.  [CURRENT_TIMESTAMP] is the timestamp [now]
      of the transaction; [gen_random_uuid()] draws from a counter kept
      with the tables.
    - One request at a time: interleavings of concurrent transactions
      are outside the model. *)

From Stdlib Require Import ZArith String List Lia.
From stdpp Require Import base numbers option list strings gmap fin_maps sorting.

Open Scope string_scope.
Open Scope list_scope.
Open Scope Z_scope.

(** ** Data model *)

Abbreviation Decimal := Z (only parsing).
Abbreviation Timestamp := Z (only parsing).
Abbreviation uuid := nat (only parsing).

(** The number of 10^-8 units in one whole currency unit. *)
Definition units : Z := 100000000.

(** [BalanceUpdateRequest.operationType]. *)
Inductive OperationType := credit | debit | reserve | release.

(** The [status] column of [balance_operations] and its [CHECK] list. *)
Inductive OperationStatus := pending | completed | failed | cancelled.

#[global] Instance OperationType_eq_dec : EqDecision OperationType.
Proof. solve_decision. Defined.

#[global] Instance OperationStatus_eq_dec : EqDecision OperationStatus.
Proof. solve_decision. Defined.

(** The text stored in the [operation_type] column. *)
Definition operationType_name (t : OperationType) : string :=
  match t with
  | credit => "credit"
  | debit => "debit"
  | reserve => "reserve"
  | release => "release"
  end.

(** One row of [balances], without its key columns [account_id] and
    [currency]: the table is indexed by them (see [Database]). *)
Record BalanceRow := mkBalanceRow {
  row_id : uuid;
  available_balance : Decimal;
  pending_balance : Decimal;
  total_balance : Decimal;
  reserved_balance : Decimal;
  last_updated : Timestamp
}.

(** [interface Balance]. *)
Record Balance := mkBalance {
  balanceId : uuid;
  accountId : string;
  currency : string;
  availableBalance : Decimal;
  pendingBalance : Decimal;
  totalBalance : Decimal;
  reservedBalance : Decimal;
  lastUpdated : Timestamp
}.

(** [mapRowToBalance], on the row stored under [(account, cur)]. *)
Definition mapRowToBalance (account cur : string) (row : BalanceRow) : Balance :=
  {| balanceId := row_id row; accountId := account; currency := cur;
     availableBalance := available_balance row;
     pendingBalance := pending_balance row;
     totalBalance := total_balance row;
     reservedBalance := reserved_balance row;
     lastUpdated := last_updated row |}.

(** [interface BalanceOperation]: one row of [balance_operations].  The
    [metadata] column holds a JSON object, kept as a finite map from
    keys to (printed) values. *)
Record BalanceOperation := mkBalanceOperation {
  op_id : uuid;
  op_accountId : string;
  op_operationType : string;
  op_amount : Decimal;
  op_currency : string;
  op_reference : string;
  op_description : string;
  op_metadata : gmap string string;
  op_createdAt : Timestamp;
  op_processedAt : option Timestamp;
  op_status : OperationStatus
}.

(** [interface BalanceUpdateRequest]. *)
Record BalanceUpdateRequest := mkBalanceUpdateRequest {
  req_accountId : string;
  req_amount : Decimal;
  req_currency : string;
  req_operationType : OperationType;
  req_reference : string;
  req_description : string;
  req_metadata : option (gmap string string)
}.

(** [interface TransferRequest]. *)
Record TransferRequest := mkTransferRequest {
  tr_fromAccountId : string;
  tr_toAccountId : string;
  tr_amount : Decimal;
  tr_currency : string;
  tr_reference : string;
  tr_description : string;
  tr_metadata : option (gmap string string)
}.

(** One row of [balance_snapshots]. *)
Record Snapshot := mkSnapshot {
  snap_id : uuid;
  snap_accountId : string;
  snap_currency : string;
  snap_availableBalance : Decimal;
  snap_pendingBalance : Decimal;
  snap_totalBalance : Decimal;
  snap_reservedBalance : Decimal;
  snap_date : string;
  snap_createdAt : Timestamp
}.

(** The store.  [balances] carries [UNIQUE(account_id, currency)] and is
    only ever read and written through that key, so it is a finite map
    from the key to the other columns.  [balance_operations] is a log in
    insertion order.  [balance_snapshots] is kept as a plain list of
    rows so that the effect of [INSERT ... ON CONFLICT ... DO UPDATE] on
    the number of rows is something to prove rather than a property of
    the type. *)
Record Database := mkDatabase {
  balances : gmap (string * string) BalanceRow;
  balance_operations : list BalanceOperation;
  balance_snapshots : list Snapshot;
  next_uuid : uuid
}.

(** The tables right after [createTables]. *)
Definition empty_db : Database :=
  {| balances := ∅; balance_operations := []; balance_snapshots := [];
     next_uuid := 0%nat |}.

(** ** Transactions: state, storage faults and exceptions *)

(** What a transaction body can throw. *)
Inductive Thrown :=
| Error (message : string)      (* [throw new Error(message)] *)
| QueryRejected (stmt : nat)    (* [client.query] rejected at statement [stmt] *)
| TypeError.                    (* a property read on [undefined] *)

#[global] Instance Thrown_eq_dec : EqDecision Thrown.
Proof. solve_decision. Defined.

Definition Faults := nat → bool.

Definition no_faults : Faults := λ _, false.

(** A computation inside a transaction: it sees the fault oracle, the
    index of the next statement and the tables as the transaction sees
    them, and either throws or returns a value with the new index and
    tables. *)
Definition Tx (A : Type) : Type :=
  Faults → nat * Database → Thrown + (A * (nat * Database)).

#[global] Instance Tx_ret : MRet Tx := λ A a _ s, inr (a, s).

#[global] Instance Tx_bind : MBind Tx := λ A B k m faults s,
  match m faults s with
  | inl e => inl e
  | inr (a, s') => k a faults s'
  end.

Definition throw {A} (e : Thrown) : Tx A := λ _ _, inl e.

(** [await client.query(...)]: run one statement, unless storage rejects it. *)
Definition query {A} (q : Database → A * Database) : Tx A :=
  λ faults '(n, db),
    if faults n then inl (QueryRejected n)
    else let '(a, db') := q db in inr (a, (S n, db')).

(** [for (const x of l) { await f(x) }]. *)
Fixpoint for_each {A} (l : list A) (f : A → Tx unit) : Tx unit :=
  match l with
  | [] => mret tt
  | x :: l' => f x;; for_each l' f
  end.

(** The [try { BEGIN ... COMMIT } catch { ROLLBACK; throw }] frame
    shared by the public operations: the body starts at statement 0 on
    the committed tables; if it throws, the tables are those before
    [BEGIN] and the exception reaches the caller. *)
Definition transaction {A} (body : Tx A) (faults : Faults) (db : Database)
  : Database * (Thrown + A) :=
  match body faults (0%nat, db) with
  | inl e => (db, inl e)
  | inr (a, (_, db')) => (db', inr a)
  end.

Definition BEGIN : Tx unit := query (λ db, (tt, db)).
Definition COMMIT : Tx unit := query (λ db, (tt, db)).

(** ** The SQL statements

    Each statement is a function from the tables to its result rows and
    the tables afterwards. *)

Definition set_balances (m : gmap (string * string) BalanceRow) (db : Database)
  : Database :=
  {| balances := m; balance_operations := balance_operations db;
     balance_snapshots := balance_snapshots db; next_uuid := next_uuid db |}.

Definition set_operations (l : list BalanceOperation) (db : Database)
  : Database :=
  {| balances := balances db; balance_operations := l;
     balance_snapshots := balance_snapshots db; next_uuid := next_uuid db |}.

Definition set_snapshots (l : list Snapshot) (db : Database) : Database :=
  {| balances := balances db; balance_operations := balance_operations db;
     balance_snapshots := l; next_uuid := next_uuid db |}.

(** [gen_random_uuid()]. *)
Definition fresh_uuid (db : Database) : uuid * Database :=
  (next_uuid db,
   {| balances := balances db; balance_operations := balance_operations db;
      balance_snapshots := balance_snapshots db;
      next_uuid := S (next_uuid db) |}).

(** [SELECT * FROM balances WHERE account_id = $1 AND currency = $2],
    mapped through [mapRowToBalance]. *)
Definition select_balance (account cur : string) (db : Database)
  : option Balance * Database :=
  (mapRowToBalance account cur <$> balances db !! (account, cur), db).

(** The row [INSERT INTO balances (account_id, currency)] creates: every
    numeric column takes its default 0, [last_updated] the current
    timestamp. *)
Definition zeroed (now : Timestamp) (i : uuid) : BalanceRow :=
  {| row_id := i; available_balance := 0; pending_balance := 0;
     total_balance := 0; reserved_balance := 0; last_updated := now |}.

(** [INSERT INTO balances (account_id, currency) VALUES ($1, $2)
    RETURNING *]. *)
Definition insert_balance (now : Timestamp) (account cur : string)
    (db : Database) : Balance * Database :=
  let '(i, db1) := fresh_uuid db in
  (mapRowToBalance account cur (zeroed now i),
   set_balances (<[(account, cur) := zeroed now i]> (balances db1)) db1).

(** [UPDATE balances SET available_balance = $1, reserved_balance = $2,
    total_balance = $3, last_updated = CURRENT_TIMESTAMP
    WHERE account_id = $4 AND currency = $5 RETURNING *]. *)
Definition update_balance (now : Timestamp) (available reserved total : Decimal)
    (account cur : string) (db : Database) : option Balance * Database :=
  match balances db !! (account, cur) with
  | Some row =>
      let row' := {| row_id := row_id row;
                     available_balance := available;
                     pending_balance := pending_balance row;
                     total_balance := total;
                     reserved_balance := reserved;
                     last_updated := now |} in
      (Some (mapRowToBalance account cur row'),
       set_balances (<[(account, cur) := row']> (balances db)) db)
  | None => (None, db)
  end.

(** The row [INSERT INTO balance_operations] creates: [status] takes its
    default ['pending'], [processed_at] is [NULL]. *)
Definition pending_operation (now : Timestamp) (i : uuid)
    (account type : string) (amount : Decimal)
    (cur reference description : string) (metadata : gmap string string)
  : BalanceOperation :=
  {| op_id := i; op_accountId := account; op_operationType := type;
     op_amount := amount; op_currency := cur; op_reference := reference;
     op_description := description; op_metadata := metadata;
     op_createdAt := now; op_processedAt := None; op_status := pending |}.

(** [INSERT INTO balance_operations (account_id, operation_type, amount,
    currency, reference, description, metadata) VALUES (...) RETURNING id]. *)
Definition insert_operation (now : Timestamp) (account type : string)
    (amount : Decimal) (cur reference description : string)
    (metadata : gmap string string) (db : Database) : uuid * Database :=
  let '(i, db1) := fresh_uuid db in
  (i, set_operations
        (balance_operations db1 ++
           [pending_operation now i account type amount cur reference
              description metadata]) db1).

Definition mark_completed (now : Timestamp) (op : BalanceOperation)
  : BalanceOperation :=
  {| op_id := op_id op; op_accountId := op_accountId op;
     op_operationType := op_operationType op; op_amount := op_amount op;
     op_currency := op_currency op; op_reference := op_reference op;
     op_description := op_description op; op_metadata := op_metadata op;
     op_createdAt := op_createdAt op; op_processedAt := Some now;
     op_status := completed |}.

(** The effect of [SET status = 'completed', processed_at =
    CURRENT_TIMESTAMP WHERE id = $1] on one row. *)
Definition complete_where (now : Timestamp) (operationId : uuid)
    (op : BalanceOperation) : BalanceOperation :=
  if decide (op_id op = operationId) then mark_completed now op else op.

(** [UPDATE balance_operations SET status = 'completed',
    processed_at = CURRENT_TIMESTAMP WHERE id = $1]. *)
Definition update_operation_completed (now : Timestamp) (operationId : uuid)
    (db : Database) : unit * Database :=
  (tt, set_operations
         (complete_where now operationId <$> balance_operations db) db).

(** [SELECT * FROM balances WHERE account_id = $1 ORDER BY currency]. *)
Definition currency_le (b1 b2 : Balance) : Prop :=
  String.le (currency b1) (currency b2).

#[global] Instance currency_le_dec : RelDecision currency_le.
Proof. intros b1 b2. unfold currency_le. apply _. Defined.

Definition select_balances_of (account : string) (db : Database)
  : list Balance * Database :=
  (merge_sort currency_le
     ((λ kr, mapRowToBalance kr.1.1 kr.1.2 kr.2) <$>
        filter (λ kr, kr.1.1 = account) (map_to_list (balances db))),
   db).

Definition snapshot_key (s : Snapshot) : string * string * string :=
  (snap_accountId s, snap_currency s, snap_date s).

Definition overwrite_snapshot (now : Timestamp) (b : Balance) (s : Snapshot)
  : Snapshot :=
  {| snap_id := snap_id s; snap_accountId := snap_accountId s;
     snap_currency := snap_currency s;
     snap_availableBalance := availableBalance b;
     snap_pendingBalance := pendingBalance b;
     snap_totalBalance := totalBalance b;
     snap_reservedBalance := reservedBalance b;
     snap_date := snap_date s; snap_createdAt := now |}.

(** [INSERT INTO balance_snapshots (...) VALUES ($1, ..., $7)
    ON CONFLICT (account_id, currency, snapshot_date) DO UPDATE SET
    available_balance = EXCLUDED.available_balance, ...,
    created_at = CURRENT_TIMESTAMP]: if a row with the proposed key is
    there, it is overwritten in place; otherwise the proposed row is
    inserted. *)
Definition upsert_snapshot (now : Timestamp) (account : string) (b : Balance)
    (date : string) (db : Database) : unit * Database :=
  let k := (account, currency b, date) in
  if bool_decide (k ∈ snapshot_key <$> balance_snapshots db)
  then (tt, set_snapshots
              ((λ s, if decide (snapshot_key s = k)
                     then overwrite_snapshot now b s else s)
                 <$> balance_snapshots db) db)
  else
    let '(i, db1) := fresh_uuid db in
    let row := {| snap_id := i; snap_accountId := account;
                  snap_currency := currency b;
                  snap_availableBalance := availableBalance b;
                  snap_pendingBalance := pendingBalance b;
                  snap_totalBalance := totalBalance b;
                  snap_reservedBalance := reservedBalance b;
                  snap_date := date; snap_createdAt := now |} in
    (tt, set_snapshots (balance_snapshots db1 ++ [row]) db1).

(** ** [BalanceService] *)

(** [getBalance]: a read on the pool, outside any transaction. *)
Definition getBalance (db : Database) (account cur : string) : option Balance :=
  mapRowToBalance account cur <$> balances db !! (account, cur).

(** [getAllBalances], as called from inside [createDailySnapshot]. *)
Definition getAllBalances (account : string) : Tx (list Balance) :=
  query (select_balances_of account).

Definition getOrCreateBalance (now : Timestamp) (account cur : string)
  : Tx Balance :=
  selectResult ← query (select_balance account cur);
  match selectResult with
  | Some row => mret row
  | None => query (insert_balance now account cur)
  end.

Definition validateBalanceOperation (balance : Balance)
    (operationType : OperationType) (amount : Decimal) : Tx unit :=
  let available := availableBalance balance in
  let reserved := reservedBalance balance in
  match operationType with
  | debit =>
      if available <? amount
      then throw (Error "Insufficient available balance") else mret tt
  | release =>
      if reserved <? amount
      then throw (Error "Insufficient reserved balance") else mret tt
  | reserve =>
      if available <? amount
      then throw (Error "Insufficient balance to reserve") else mret tt
  | credit => mret tt
  end.

Definition createBalanceOperation (now : Timestamp)
    (request : BalanceUpdateRequest) : Tx uuid :=
  query (insert_operation now (req_accountId request)
           (operationType_name (req_operationType request))
           (req_amount request) (req_currency request)
           (req_reference request) (req_description request)
           (default ∅ (req_metadata request))).

Definition createTransferOperation (now : Timestamp)
    (request : TransferRequest) : Tx uuid :=
  query (insert_operation now (tr_fromAccountId request) "transfer"
           (tr_amount request) (tr_currency request)
           (tr_reference request) (tr_description request)
           (<["transferType" := "outbound"]>
              (<["toAccountId" := tr_toAccountId request]>
                 (default ∅ (tr_metadata request))))).

(** The new [available] and [reserved] of [applyBalanceOperation]'s [switch]. *)
Definition applied (balance : Balance) (operationType : OperationType)
    (amount : Decimal) : Decimal * Decimal :=
  let available := availableBalance balance in
  let reserved := reservedBalance balance in
  match operationType with
  | credit => (available + amount, reserved)
  | debit => (available - amount, reserved)
  | reserve => (available - amount, reserved + amount)
  | release => (available + amount, reserved - amount)
  end.

Definition applyBalanceOperation (now : Timestamp) (balance : Balance)
    (operationType : OperationType) (amount : Decimal) : Tx Balance :=
  let '(available, reserved) := applied balance operationType amount in
  let total := available + reserved in
  result ← query (update_balance now available reserved total
                     (accountId balance) (currency balance));
  match result with
  | Some row => mret row
  | None => throw TypeError
  end.

Definition completeBalanceOperation (now : Timestamp) (operationId : uuid)
  : Tx unit :=
  query (update_operation_completed now operationId).

Definition updateBalance_body (now : Timestamp) (request : BalanceUpdateRequest)
  : Tx Balance :=
  BEGIN;;
  let amount := req_amount request in
  (if amount =? 0 then throw (Error "Amount cannot be zero") else mret tt);;
  balance ← getOrCreateBalance now (req_accountId request)
               (req_currency request);
  validateBalanceOperation balance (req_operationType request) amount;;
  operationId ← createBalanceOperation now request;
  balance ← applyBalanceOperation now balance (req_operationType request)
               amount;
  completeBalanceOperation now operationId;;
  COMMIT;;
  mret balance.

Definition updateBalance (now : Timestamp) (faults : Faults) (db : Database)
    (request : BalanceUpdateRequest) : Database * (Thrown + Balance) :=
  transaction (updateBalance_body now request) faults db.

(** The value [transferBalance] resolves to. *)
Record TransferResult := mkTransferResult {
  fromBalance : Balance;
  toBalance : Balance;
  operationId : uuid
}.

Definition transferBalance_body (now : Timestamp) (request : TransferRequest)
  : Tx TransferResult :=
  BEGIN;;
  let amount := tr_amount request in
  (if amount <=? 0 then throw (Error "Transfer amount must be positive")
   else mret tt);;
  fromBalance ← getOrCreateBalance now (tr_fromAccountId request)
                   (tr_currency request);
  toBalance ← getOrCreateBalance now (tr_toAccountId request)
                 (tr_currency request);
  (if availableBalance fromBalance <? amount
   then throw (Error "Insufficient balance for transfer") else mret tt);;
  transferId ← createTransferOperation now request;
  updatedFromBalance ← applyBalanceOperation now fromBalance debit amount;
  updatedToBalance ← applyBalanceOperation now toBalance credit amount;
  completeBalanceOperation now transferId;;
  COMMIT;;
  mret {| fromBalance := updatedFromBalance; toBalance := updatedToBalance;
          operationId := transferId |}.

Definition transferBalance (now : Timestamp) (faults : Faults) (db : Database)
    (request : TransferRequest) : Database * (Thrown + TransferResult) :=
  transaction (transferBalance_body now request) faults db.



Definition createDailySnapshot_body (now : Timestamp) (account date : string)
  : Tx unit :=
  BEGIN;;
  balances ← getAllBalances account;
  for_each balances (λ balance,
    query (upsert_snapshot now account balance date));;
  COMMIT;;
  mret tt.

Definition createDailySnapshot (now : Timestamp) (faults : Faults)
    (db : Database) (account date : string) : Database * (Thrown + unit) :=
  transaction (createDailySnapshot_body now account date) faults db.

(** ** Reachable stores

    The stores the service can be in: the empty tables, and whatever a
    public operation leaves behind, whether it commits or rolls back,
    at any time and under any pattern of storage faults. *)
Inductive reachable : Database → Prop :=
| reachable_empty :
    reachable empty_db
| reachable_updateBalance now faults db request :
    reachable db →
    reachable (updateBalance now faults db request).1
| reachable_transferBalance now faults db request :
    reachable db →
    reachable (transferBalance now faults db request).1
| reachable_createDailySnapshot now faults db account date :
    reachable db →
    reachable (createDailySnapshot now faults db account date).1.

(** The available and reserved amounts held under a key; a key without
    a row holds what [getOrCreateBalance] would create for it. *)
Definition available (db : Database) (account cur : string) : Decimal :=
  from_option available_balance 0 (balances db !! (account, cur)).

Definition reserved (db : Database) (account cur : string) : Decimal :=
  from_option reserved_balance 0 (balances db !! (account, cur)).

(** ** Running transaction bodies *)

(** [fault_stable m]: a run of [m] that returns did not meet a fault, so
    the fault-free run returns the same. *)
Definition fault_stable {A} (m : Tx A) : Prop :=
  ∀ faults s r, m faults s = inr r → m no_faults s = inr r.

Section Run.
Context {A B : Type}.
Implicit Types (m : Tx A) (k : A → Tx B).

Lemma bind_run m k faults s :
  (m ≫= k) faults s =
  match m faults s with
  | inl e => inl e
  | inr (a, s') => k a faults s'
  end.
Proof. reflexivity. Qed.

Lemma ret_run (a : A) faults s : mret (M:=Tx) a faults s = inr (a, s).
Proof. reflexivity. Qed.

Lemma throw_run e faults s : throw (A:=A) e faults s = inl e.
Proof. reflexivity. Qed.

Lemma query_run (q : Database → A * Database) n db :
  query q no_faults (n, db) = inr ((q db).1, (S n, (q db).2)).
Proof. unfold query, no_faults. by destruct (q db). Qed.

Lemma query_fault (q : Database → A * Database) faults n db :
  faults n = true → query q faults (n, db) = inl (QueryRejected n).
Proof. unfold query. by intros ->. Qed.

Lemma if_run (c : bool) (m1 m2 : Tx A) faults s :
  (if c then m1 else m2) faults s = if c then m1 faults s else m2 faults s.
Proof. by destruct c. Qed.

Lemma fault_stable_ret (a : A) : fault_stable (mret a).
Proof. by intros faults s r. Qed.

Lemma fault_stable_throw e : fault_stable (throw (A:=A) e).
Proof. by intros faults s r. Qed.

Lemma fault_stable_query (q : Database → A * Database) :
  fault_stable (query q).
Proof.
  intros faults [n db] r. unfold query, no_faults.
  by destruct (faults n).
Qed.

Lemma fault_stable_bind m k :
  fault_stable m → (∀ a, fault_stable (k a)) → fault_stable (m ≫= k).
Proof.
  intros Hm Hk faults s r. rewrite !bind_run.
  destruct (m faults s) as [e | [a s1]] eqn:Em; [done |].
  rewrite (Hm _ _ _ Em). apply Hk.
Qed.
End Run.

Lemma fault_stable_for_each {A} (l : list A) (f : A → Tx unit) :
  (∀ x, fault_stable (f x)) → fault_stable (for_each l f).
Proof.
  intros Hf. induction l as [| x l IH]; simpl.
  - apply fault_stable_ret.
  - apply fault_stable_bind; auto.
Qed.

(** Rewrite the head of a running body one statement at a time. *)
Ltac tx_run :=
  repeat first
    [ rewrite bind_run | rewrite query_run | rewrite ret_run
    | rewrite throw_run | rewrite if_run | progress cbv beta iota ].

(** Discharge [fault_stable] along the structure of a body. *)
Ltac tx_stable :=
  repeat first
    [ apply fault_stable_ret | apply fault_stable_throw
    | apply fault_stable_query
    | apply fault_stable_for_each
    | apply fault_stable_bind
    | match goal with
      | |- ∀ _, _ => intro
      | |- fault_stable (if ?c then _ else _) => destruct c
      | |- fault_stable (match ?x with _ => _ end) => destruct x
      end ].

(** A transaction that throws leaves the committed tables as they were. *)
Lemma transaction_rollback {A} (body : Tx A) faults db e :
  (transaction body faults db).2 = inl e →
  (transaction body faults db).1 = db.
Proof.
  unfold transaction.
  by destruct (body faults (0%nat, db)) as [e' | [a [n db']]].
Qed.

(** A transaction that commits is the fault-free run. *)
Lemma transaction_fault_stable {A} (body : Tx A) faults db a :
  fault_stable body →
  (transaction body faults db).2 = inr a →
  transaction body faults db = transaction body no_faults db.
Proof.
  intros Hbody. unfold transaction.
  destruct (body faults (0%nat, db)) as [e | [a' [n db']]] eqn:E; [done |].
  by rewrite (Hbody _ _ _ E).
Qed.

Lemma updateBalance_body_stable now request :
  fault_stable (updateBalance_body now request).
Proof.
  unfold updateBalance_body, BEGIN, COMMIT, getOrCreateBalance,
    validateBalanceOperation, createBalanceOperation, applyBalanceOperation,
    completeBalanceOperation.
  tx_stable.
Qed.

Lemma transferBalance_body_stable now request :
  fault_stable (transferBalance_body now request).
Proof.
  unfold transferBalance_body, BEGIN, COMMIT, getOrCreateBalance,
    createTransferOperation, applyBalanceOperation, completeBalanceOperation.
  tx_stable.
Qed.

Lemma createDailySnapshot_body_stable now account date :
  fault_stable (createDailySnapshot_body now account date).
Proof.
  unfold createDailySnapshot_body, BEGIN, COMMIT, getAllBalances.
  tx_stable.
Qed.

(** ** What the private methods do when storage does not reject *)

(** The row [applyBalanceOperation] writes over [row] when it is handed
    the balance [b]. *)
Definition rewritten (now : Timestamp) (row : BalanceRow) (b : Balance)
    (operationType : OperationType) (amount : Decimal) : BalanceRow :=
  {| row_id := row_id row;
     available_balance := (applied b operationType amount).1;
     pending_balance := pending_balance row;
     total_balance :=
       (applied b operationType amount).1 + (applied b operationType amount).2;
     reserved_balance := (applied b operationType amount).2;
     last_updated := now |}.

(** What [validateBalanceOperation] lets through. *)
Definition admissible (b : Balance) (operationType : OperationType)
    (amount : Decimal) : Prop :=
  match operationType with
  | credit => True
  | debit | reserve => amount ≤ availableBalance b
  | release => amount ≤ reservedBalance b
  end.

#[global] Instance admissible_dec b operationType amount :
  Decision (admissible b operationType amount).
Proof. destruct operationType; simpl; apply _. Defined.

(** The message of the [Error] it throws otherwise ([credit] is never
    refused). *)
Definition refusal (operationType : OperationType) : string :=
  match operationType with
  | credit => ""
  | debit => "Insufficient available balance"
  | reserve => "Insufficient balance to reserve"
  | release => "Insufficient reserved balance"
  end.


Lemma getOrCreateBalance_run now account cur n db :
  getOrCreateBalance now account cur no_faults (n, db) =
  match balances db !! (account, cur) with
  | Some row => inr (mapRowToBalance account cur row, (S n, db))
  | None =>
      inr (mapRowToBalance account cur (zeroed now (next_uuid db)),
           (S (S n),
            {| balances := <[(account, cur) := zeroed now (next_uuid db)]>
                             (balances db);
               balance_operations := balance_operations db;
               balance_snapshots := balance_snapshots db;
               next_uuid := S (next_uuid db) |}))
  end.
Proof.
  unfold getOrCreateBalance. tx_run. cbn [select_balance fst snd].
  destruct (balances db !! (account, cur));
    cbn [fmap option_fmap option_map]; by tx_run.
Qed.

Lemma validateBalanceOperation_run b operationType amount faults s :
  validateBalanceOperation b operationType amount faults s =
  if decide (admissible b operationType amount) then inr (tt, s)
  else inl (Error (refusal operationType)).
Proof.
  unfold validateBalanceOperation, admissible, refusal.
  destruct operationType; tx_run;
    repeat match goal with
    | |- context [?x <? ?y] => destruct (Z.ltb_spec x y)
    end;
    case_decide; first [done | lia].
Qed.

Lemma applyBalanceOperation_run now b operationType amount n db row :
  balances db !! (accountId b, currency b) = Some row →
  applyBalanceOperation now b operationType amount no_faults (n, db) =
  inr (mapRowToBalance (accountId b) (currency b)
         (rewritten now row b operationType amount),
       (S n, set_balances
               (<[(accountId b, currency b) :=
                    rewritten now row b operationType amount]> (balances db))
               db)).
Proof.
  intros Hrow. unfold applyBalanceOperation, rewritten.
  destruct (applied b operationType amount) as [a r]. tx_run.
  unfold update_balance. rewrite Hrow. by tx_run.
Qed.

Lemma applyBalanceOperation_missing now b operationType amount n db :
  balances db !! (accountId b, currency b) = None →
  applyBalanceOperation now b operationType amount no_faults (n, db) =
  inl TypeError.
Proof.
  intros Hrow. unfold applyBalanceOperation.
  destruct (applied b operationType amount) as [a r]. tx_run.
  unfold update_balance. rewrite Hrow. by tx_run.
Qed.

Lemma complete_where_same now op :
  complete_where now (op_id op) op = mark_completed now op.
Proof. unfold complete_where. by rewrite decide_True. Qed.

Lemma complete_where_other now i op :
  op_id op ≠ i → complete_where now i op = op.
Proof. intros Hne. unfold complete_where. by rewrite decide_False. Qed.

Lemma complete_where_log now i ops op :
  op_id op = i →
  complete_where now i <$> (ops ++ [op]) =
  (complete_where now i <$> ops) ++ [mark_completed now op].
Proof. intros <-. by rewrite fmap_app, <- complete_where_same. Qed.

(** ** [updateBalance] in closed form *)

Section UpdateBalance.
Variables (now : Timestamp) (db : Database) (request : BalanceUpdateRequest).

Let account := req_accountId request.
Let cur := req_currency request.
Let amount := req_amount request.
Let type := req_operationType request.

(** The row the request works on: the stored one, or the zeroed one
    [getOrCreateBalance] inserts. *)
Definition update_row : BalanceRow :=
  default (zeroed now (next_uuid db)) (balances db !! (account, cur)).

Definition update_balance_read : Balance :=
  mapRowToBalance account cur update_row.

(** The identifier the operation record receives. *)
Definition update_operation_id : uuid :=
  match balances db !! (account, cur) with
  | Some _ => next_uuid db
  | None => S (next_uuid db)
  end.

Definition update_row_written : BalanceRow :=
  rewritten now update_row update_balance_read type amount.

(** The tables a successful [updateBalance] commits. *)
Definition update_committed : Database :=
  {| balances := <[(account, cur) := update_row_written]> (balances db);
     balance_operations :=
       (complete_where now update_operation_id <$> balance_operations db) ++
       [mark_completed now
          (pending_operation now update_operation_id account
             (operationType_name type) amount cur (req_reference request)
             (req_description request) (default ∅ (req_metadata request)))];
     balance_snapshots := balance_snapshots db;
     next_uuid := S update_operation_id |}.

Lemma updateBalance_run :
  updateBalance now no_faults db request =
  if amount =? 0 then (db, inl (Error "Amount cannot be zero"))
  else if decide (admissible update_balance_read type amount)
  then (update_committed,
        inr (mapRowToBalance account cur update_row_written))
  else (db, inl (Error (refusal type))).
Proof.
  unfold updateBalance, transaction, updateBalance_body, BEGIN, COMMIT,
    createBalanceOperation, completeBalanceOperation.
  unfold update_committed, update_row_written, update_balance_read,
    update_operation_id, update_row.
  fold account cur amount type.
  tx_run. cbn [fst snd].
  destruct (amount =? 0); tx_run; [done |].
  rewrite getOrCreateBalance_run.
  destruct (balances db !! (account, cur)) as [row |] eqn:Hrow;
    cbn [default from_option id]; tx_run;
    rewrite validateBalanceOperation_run;
    (case_decide; [| done]); tx_run.
  - erewrite applyBalanceOperation_run by exact Hrow. tx_run.
    cbn. unfold set_operations, set_balances. cbn.
    by rewrite complete_where_log.
  - erewrite applyBalanceOperation_run by apply lookup_insert_eq. tx_run.
    cbn. unfold set_operations, set_balances. cbn.
    by rewrite insert_insert_eq, complete_where_log.
Qed.
End UpdateBalance.

Lemma update_row_available now db request :
  available_balance (update_row now db request) =
  available db (req_accountId request) (req_currency request).
Proof. unfold update_row, available. by destruct (balances db !! _). Qed.


(** Whatever the faults, a committed [updateBalance] is the one above. *)
Lemma updateBalance_commit now faults db request db' b :
  updateBalance now faults db request = (db', inr b) →
  req_amount request ≠ 0 ∧
  admissible (update_balance_read now db request)
    (req_operationType request) (req_amount request) ∧
  db' = update_committed now db request ∧
  b = mapRowToBalance (req_accountId request) (req_currency request)
        (update_row_written now db request).
Proof.
  intros Hrun. unfold updateBalance in Hrun.
  rewrite (transaction_fault_stable _ _ _ b) in Hrun;
    [| apply updateBalance_body_stable | by rewrite Hrun].
  fold (updateBalance now no_faults db request) in Hrun.
  rewrite updateBalance_run in Hrun.
  destruct (Z.eqb_spec (req_amount request) 0); [done |].
  case_decide; [| done]. by simplify_eq.
Qed.

Lemma updateBalance_rollback now faults db request e :
  (updateBalance now faults db request).2 = inl e →
  (updateBalance now faults db request).1 = db.
Proof. apply transaction_rollback. Qed.

(** ** [transferBalance] in closed form *)

Section TransferBalance.
Variables (now : Timestamp) (db : Database) (request : TransferRequest).

Let source := tr_fromAccountId request.
Let target := tr_toAccountId request.
Let cur := tr_currency request.
Let amount := tr_amount request.

(** The rows of the two accounts as [getOrCreateBalance] reads them
    in a transfer that gets past the sufficiency check (the source
    row is then a stored one). *)
Definition transfer_from_row : BalanceRow :=
  default (zeroed now (next_uuid db)) (balances db !! (source, cur)).

Definition transfer_to_row : BalanceRow :=
  default (zeroed now (next_uuid db)) (balances db !! (target, cur)).

Definition transfer_operation_id : uuid :=
  match balances db !! (target, cur) with
  | Some _ => next_uuid db
  | None => S (next_uuid db)
  end.

(** The row the debit leg writes, from the source balance it read. *)
Definition transfer_from_written : BalanceRow :=
  rewritten now transfer_from_row
    (mapRowToBalance source cur transfer_from_row) debit amount.

(** The row the credit leg writes, from the target balance read
    before the debit leg ran. *)
Definition transfer_to_written : BalanceRow :=
  rewritten now transfer_to_row
    (mapRowToBalance target cur transfer_to_row) credit amount.

Definition transfer_committed : Database :=
  {| balances :=
       <[(target, cur) := transfer_to_written]>
         (<[(source, cur) := transfer_from_written]> (balances db));
     balance_operations :=
       (complete_where now transfer_operation_id <$> balance_operations db)
       ++ [mark_completed now
             (pending_operation now transfer_operation_id source "transfer"
                amount cur (tr_reference request) (tr_description request)
                (<["transferType" := "outbound"]>
                   (<["toAccountId" := target]>
                      (default ∅ (tr_metadata request)))))];
     balance_snapshots := balance_snapshots db;
     next_uuid := S transfer_operation_id |}.

Definition transfer_result : TransferResult :=
  {| fromBalance := mapRowToBalance source cur transfer_from_written;
     toBalance := mapRowToBalance target cur transfer_to_written;
     operationId := transfer_operation_id |}.

Lemma transferBalance_run :
  transferBalance now no_faults db request =
  if amount <=? 0
  then (db, inl (Error "Transfer amount must be positive"))
  else if available db source cur <? amount
  then (db, inl (Error "Insufficient balance for transfer"))
  else (transfer_committed, inr transfer_result).
Proof.
  unfold transferBalance, transaction, transferBalance_body, BEGIN, COMMIT,
    createTransferOperation, completeBalanceOperation.
  unfold transfer_committed, transfer_result, transfer_to_written,
    transfer_from_written, transfer_operation_id, transfer_to_row,
    transfer_from_row, available.
  fold source target cur amount.
  tx_run. cbn [fst snd].
  destruct (Z.leb_spec amount 0) as [| Hpos]; tx_run; [done |].
  rewrite getOrCreateBalance_run.
  destruct (balances db !! (source, cur)) as [rowF |] eqn:HrowF;
    cbn [default from_option id]; tx_run; rewrite getOrCreateBalance_run.
  - destruct (balances db !! (target, cur)) as [rowT |] eqn:HrowT;
      cbn [default from_option id]; tx_run;
      cbn [mapRowToBalance availableBalance];
      (destruct (available_balance rowF <? amount); tx_run; [done |]).
    + erewrite applyBalanceOperation_run by exact HrowF. tx_run.
      destruct (decide ((source, cur) = (target, cur))) as [Heq | Hne].
      * assert (rowT = rowF) as -> by congruence.
        erewrite applyBalanceOperation_run
          by (cbn; rewrite <- Heq; apply lookup_insert_eq).
        tx_run. cbn. unfold set_operations, set_balances. cbn.
        by rewrite complete_where_log.
      * erewrite applyBalanceOperation_run
          by (cbn; rewrite lookup_insert_ne by done; exact HrowT).
        tx_run. cbn. unfold set_operations, set_balances. cbn.
        by rewrite complete_where_log.
    + assert ((source, cur) ≠ (target, cur)) as Hne by congruence.
      erewrite applyBalanceOperation_run
        by (cbn; rewrite lookup_insert_ne by done; exact HrowF).
      tx_run.
      erewrite applyBalanceOperation_run
        by (cbn; rewrite lookup_insert_ne by done; apply lookup_insert_eq).
      tx_run. cbn. unfold set_operations, set_balances. cbn.
      rewrite complete_where_log by done.
      do 2 f_equal.
      rewrite (insert_insert_ne (<[(target, cur):=_]> (balances db)))
        by done.
      rewrite insert_insert_eq. by apply insert_insert_ne.
  - cbn [balances]. cbn [from_option].
    destruct (<[(source, cur):=zeroed now (next_uuid db)]> (balances db)
                !! (target, cur)); tx_run;
      cbn [mapRowToBalance availableBalance zeroed available_balance];
      destruct (Z.ltb_spec 0 amount); tx_run; first [done | lia].
Qed.
End TransferBalance.

Lemma transferBalance_commit now faults db request db' result :
  transferBalance now faults db request = (db', inr result) →
  0 < tr_amount request ∧
  tr_amount request ≤
    available db (tr_fromAccountId request) (tr_currency request) ∧
  db' = transfer_committed now db request ∧
  result = transfer_result now db request.
Proof.
  intros Hrun. unfold transferBalance in Hrun.
  rewrite (transaction_fault_stable _ _ _ result) in Hrun;
    [| apply transferBalance_body_stable | by rewrite Hrun].
  fold (transferBalance now no_faults db request) in Hrun.
  rewrite transferBalance_run in Hrun.
  destruct (Z.leb_spec (tr_amount request) 0); [done |].
  destruct (Z.ltb_spec
              (available db (tr_fromAccountId request) (tr_currency request))
              (tr_amount request)); [done |].
  by simplify_eq.
Qed.

Lemma transferBalance_rollback now faults db request e :
  (transferBalance now faults db request).2 = inl e →
  (transferBalance now faults db request).1 = db.
Proof. apply transaction_rollback. Qed.

(** ** [createDailySnapshot] in closed form *)

Lemma for_each_run {A} (l : list A) (q : A → Database → unit * Database) n db :
  for_each l (λ x, query (q x)) no_faults (n, db) =
  inr (tt, ((n + length l)%nat, foldl (λ d x, (q x d).2) db l)).
Proof.
  revert n db. induction l as [| x l IH]; intros n db; simpl.
  - rewrite ret_run. do 3 f_equal. lia.
  - tx_run. rewrite IH. do 3 f_equal. lia.
Qed.

(** The balances of an account as [createDailySnapshot] reads them. *)
Definition snapshot_source (db : Database) (account : string) : list Balance :=
  (select_balances_of account db).1.

(** The snapshot table after the loop over [bs]. *)
Definition snapshots_after (now : Timestamp) (account date : string)
    (bs : list Balance) (db : Database) : Database :=
  foldl (λ d b, (upsert_snapshot now account b date d).2) db bs.

Lemma createDailySnapshot_run now db account date :
  createDailySnapshot now no_faults db account date =
  (snapshots_after now account date (snapshot_source db account) db, inr tt).
Proof.
  unfold createDailySnapshot, transaction, createDailySnapshot_body, BEGIN,
    COMMIT, getAllBalances.
  tx_run. cbn [fst snd]. rewrite for_each_run. tx_run. cbn [fst snd].
  reflexivity.
Qed.

Lemma createDailySnapshot_commit now faults db account date db' u :
  createDailySnapshot now faults db account date = (db', inr u) →
  db' = snapshots_after now account date (snapshot_source db account) db.
Proof.
  intros Hrun. unfold createDailySnapshot in Hrun.
  rewrite (transaction_fault_stable _ _ _ u) in Hrun;
    [| apply createDailySnapshot_body_stable | by rewrite Hrun].
  fold (createDailySnapshot now no_faults db account date) in Hrun.
  rewrite createDailySnapshot_run in Hrun. by simplify_eq.
Qed.

Lemma upsert_snapshot_frame now account b date db :
  balances (upsert_snapshot now account b date db).2 = balances db ∧
  balance_operations (upsert_snapshot now account b date db).2 =
    balance_operations db ∧
  (next_uuid db ≤ next_uuid (upsert_snapshot now account b date db).2)%nat.
Proof. unfold upsert_snapshot. case_bool_decide; cbn; auto with lia. Qed.

Lemma snapshots_after_frame now account date bs db :
  balances (snapshots_after now account date bs db) = balances db ∧
  balance_operations (snapshots_after now account date bs db) =
    balance_operations db ∧
  (next_uuid db ≤ next_uuid (snapshots_after now account date bs db))%nat.
Proof.
  revert db. induction bs as [| b bs IH]; intros db; simpl; [auto |].
  destruct (IH (upsert_snapshot now account b date db).2) as (-> & -> & ?).
  destruct (upsert_snapshot_frame now account b date db) as (-> & -> & ?).
  auto with lia.
Qed.

(** ** Invariants of the reachable stores *)


Definition settled (op : BalanceOperation) : Prop :=
  op_status op = completed ∧ is_Some (op_processedAt op).

Definition operations_settled (db : Database) : Prop :=
  ∀ op, op ∈ balance_operations db → settled op.

Definition uuids_fresh (db : Database) : Prop :=
  ∀ op, op ∈ balance_operations db → (op_id op < next_uuid db)%nat.

(** An induction principle over the reachable stores in terms of what
    each operation commits: a property of the empty tables that every
    commit preserves holds of every reachable store. *)
Lemma reachable_ind_commit (I : Database → Prop) :
  I empty_db →
  (∀ now db request, I db → I (update_committed now db request)) →
  (∀ now db request, I db → I (transfer_committed now db request)) →
  (∀ now db account date bs,
     I db → I (snapshots_after now account date bs db)) →
  ∀ db, reachable db → I db.
Proof.
  intros Hempty Hupdate Htransfer Hsnapshot db Hreach.
  induction Hreach as [| now faults db request _ IH
                        | now faults db request _ IH
                        | now faults db account date _ IH].
  - exact Hempty.
  - pose proof (updateBalance_rollback now faults db request) as Hback.
    destruct (updateBalance now faults db request) as [db' [e | b]] eqn:E.
    + by rewrite (Hback e eq_refl).
    + apply updateBalance_commit in E as (_ & _ & -> & _). by apply Hupdate.
  - pose proof (transferBalance_rollback now faults db request) as Hback.
    destruct (transferBalance now faults db request) as [db' [e | r]] eqn:E.
    + by rewrite (Hback e eq_refl).
    + apply transferBalance_commit in E as (_ & _ & -> & _).
      by apply Htransfer.
  - pose proof (transaction_rollback
                  (createDailySnapshot_body now account date) faults db)
      as Hback.
    fold (createDailySnapshot now faults db account date) in Hback.
    destruct (createDailySnapshot now faults db account date)
      as [db' [e | u]] eqn:E.
    + by rewrite (Hback e eq_refl).
    + apply createDailySnapshot_commit in E as ->. by apply Hsnapshot.
Qed.



Lemma complete_where_settled now i op :
  settled op → settled (complete_where now i op).
Proof.
  intros Hop. unfold complete_where. case_decide; [| done].
  split; [done | by eexists].
Qed.

Lemma committed_log_settled now i ops op :
  (∀ o, o ∈ ops → settled o) →
  ∀ o, o ∈ (complete_where now i <$> ops) ++ [mark_completed now op] →
       settled o.
Proof.
  intros Hops o [Ho | Ho%list_elem_of_singleton]%elem_of_app.
  - apply list_elem_of_fmap in Ho as (o' & -> & Ho').
    by apply complete_where_settled, Hops.
  - subst o. split; [done | by eexists].
Qed.

Lemma reachable_operations_settled db : reachable db → operations_settled db.
Proof.
  revert db. apply reachable_ind_commit.
  - intros op Hop. by apply elem_of_nil in Hop.
  - intros now db request IH op Hop.
    eapply committed_log_settled; [exact IH | exact Hop].
  - intros now db request IH op Hop.
    eapply committed_log_settled; [exact IH | exact Hop].
  - intros now db account date bs IH op.
    destruct (snapshots_after_frame now account date bs db) as (_ & -> & _).
    by apply IH.
Qed.

Lemma complete_where_id now i op : op_id (complete_where now i op) = op_id op.
Proof. unfold complete_where. by case_decide. Qed.

Lemma committed_log_fresh now i n ops op :
  (n ≤ i)%nat → op_id op = i →
  (∀ o, o ∈ ops → (op_id o < n)%nat) →
  ∀ o, o ∈ (complete_where now i <$> ops) ++ [mark_completed now op] →
       (op_id o < S i)%nat.
Proof.
  intros Hle Hid Hops o [Ho | Ho%list_elem_of_singleton]%elem_of_app.
  - apply list_elem_of_fmap in Ho as (o' & -> & Ho').
    rewrite complete_where_id. apply Hops in Ho'. lia.
  - subst o. cbn. lia.
Qed.

Lemma reachable_uuids_fresh db : reachable db → uuids_fresh db.
Proof.
  revert db. apply reachable_ind_commit.
  - intros op Hop. by apply elem_of_nil in Hop.
  - intros now db request IH op Hop.
    eapply (committed_log_fresh _ _ (next_uuid db)); [| | exact IH | exact Hop];
      [| done].
    unfold update_operation_id. case_match; lia.
  - intros now db request IH op Hop.
    eapply (committed_log_fresh _ _ (next_uuid db)); [| | exact IH | exact Hop];
      [| done].
    unfold transfer_operation_id. case_match; lia.
  - intros now db account date bs IH op.
    destruct (snapshots_after_frame now account date bs db) as (_ & -> & ?).
    intros Hop%IH. lia.
Qed.

(** With fresh identifiers, completing the new record touches no other. *)
Lemma complete_where_fresh now i db :
  uuids_fresh db → (next_uuid db ≤ i)%nat →
  complete_where now i <$> balance_operations db = balance_operations db.
Proof.
  intros Hfresh Hle. rewrite <- (list_fmap_id (balance_operations db)) at 2.
  apply Forall_fmap_ext_1, Forall_forall. intros op Hop%Hfresh.
  apply complete_where_other. unfold id. lia.
Qed.

(** ** Sample requests and stores *)

Definition update_request (account : string) (type : OperationType)
    (amount : Decimal) : BalanceUpdateRequest :=
  {| req_accountId := account; req_amount := amount; req_currency := "USD";
     req_operationType := type; req_reference := "ref";
     req_description := "update"; req_metadata := None |}.

Definition transfer_request (source target : string) (amount : Decimal)
  : TransferRequest :=
  {| tr_fromAccountId := source; tr_toAccountId := target;
     tr_amount := amount; tr_currency := "USD"; tr_reference := "ref";
     tr_description := "transfer"; tr_metadata := None |}.

(** Account A holds 100.00000000 available. *)
Definition db_A100 : Database :=
  (updateBalance 1 no_faults empty_db
     (update_request "A" credit (100 * units))).1.

(** Account A holds 50.00000000, account B holds 10.00000000. *)
Definition db_A50 : Database :=
  (updateBalance 1 no_faults empty_db
     (update_request "A" credit (50 * units))).1.

Definition db_A50_B10 : Database :=
  (updateBalance 2 no_faults db_A50
     (update_request "B" credit (10 * units))).1.

Lemma reachable_db_A100 : reachable db_A100.
Proof. repeat constructor. Qed.

Lemma reachable_db_A50 : reachable db_A50.
Proof. repeat constructor. Qed.

Lemma reachable_db_A50_B10 : reachable db_A50_B10.
Proof. repeat constructor. Qed.

(** ** C1: the total is the sum of available and reserved *)




(** After crediting 100 and reserving 30, A's row is 70 / 30 / 100. *)
Definition db_A70_reserved30 : Database :=
  (updateBalance 2 no_faults db_A100
     (update_request "A" reserve (30 * units))).1.

Definition row_A70_reserved30 : BalanceRow :=
  {| row_id := 0; available_balance := 70 * units; pending_balance := 0;
     total_balance := 100 * units; reserved_balance := 30 * units;
     last_updated := 2 |}.


(** ** C2, C3: the sign of the amount *)

(** [updateBalance] turns away a zero amount, before reading anything. *)
Lemma updateBalance_zero_amount now db request :
  req_amount request = 0 →
  updateBalance now no_faults db request =
  (db, inl (Error "Amount cannot be zero")).
Proof. intros Hzero. rewrite updateBalance_run. by rewrite Hzero. Qed.

(** It has no check on the sign: a credit of a negative amount is never
    refused, and lowers the available amount. *)
Lemma updateBalance_negative_credit now db request :
  req_operationType request = credit → req_amount request < 0 →
  ∃ b, updateBalance now no_faults db request
       = (update_committed now db request, inr b) ∧
       availableBalance b =
         available db (req_accountId request) (req_currency request)
         + req_amount request.
Proof.
  intros Htype Hneg. rewrite updateBalance_run, Htype.
  destruct (Z.eqb_spec (req_amount request) 0); [lia |].
  rewrite decide_True by done. eexists. split; [reflexivity |].
  cbn. rewrite Htype. cbn. by rewrite update_row_available.
Qed.

(** [transferBalance], by contrast, checks the sign of its amount. *)
Lemma transferBalance_nonpositive_amount now db request :
  tr_amount request ≤ 0 →
  transferBalance now no_faults db request =
  (db, inl (Error "Transfer amount must be positive")).
Proof.
  intros Hle. rewrite transferBalance_run.
  by destruct (Z.leb_spec (tr_amount request) 0); [| lia].
Qed.

Definition nonnegative (db : Database) : Prop :=
  ∀ k row, balances db !! k = Some row →
           0 ≤ available_balance row ∧ 0 ≤ reserved_balance row.

(** With a positive amount, what the validator lets through keeps both
    fields non-negative. *)
Lemma updateBalance_keeps_nonnegative now faults db request :
  0 < req_amount request → nonnegative db →
  nonnegative (updateBalance now faults db request).1.
Proof.
  intros Hpos Hnn.
  pose proof (updateBalance_rollback now faults db request) as Hback.
  destruct (updateBalance now faults db request) as [db' [e | b]] eqn:E.
  - by rewrite (Hback e eq_refl).
  - apply updateBalance_commit in E as (_ & Hadm & -> & _).
    intros k row. cbn. rewrite lookup_insert. case_decide; [| by apply Hnn].
    intros [= <-]. clear Hback.
    assert (0 ≤ available_balance (update_row now db request) ∧
            0 ≤ reserved_balance (update_row now db request)) as [Ha Hr].
    { unfold update_row.
      destruct (balances db !! _) as [row |] eqn:Hrow; cbn; [| lia].
      by apply Hnn in Hrow. }
    unfold update_row_written, rewritten, applied, update_balance_read.
    unfold admissible, update_balance_read in Hadm. cbn in *.
    destruct (req_operationType request); cbn; lia.
Qed.

Lemma transferBalance_keeps_nonnegative now faults db request :
  nonnegative db → nonnegative (transferBalance now faults db request).1.
Proof.
  intros Hnn.
  pose proof (transferBalance_rollback now faults db request) as Hback.
  destruct (transferBalance now faults db request) as [db' [e | r]] eqn:E.
  - by rewrite (Hback e eq_refl).
  - apply transferBalance_commit in E as (Hpos & Hle & -> & _).
    assert (∀ account, 
              0 ≤ available_balance
                    (default (zeroed now (next_uuid db))
                       (balances db !! (account, tr_currency request))) ∧
              0 ≤ reserved_balance
                    (default (zeroed now (next_uuid db))
                       (balances db !! (account, tr_currency request))))
      as Hrows.
    { intros account.
      destruct (balances db !! _) as [row |] eqn:Hrow; cbn; [| lia].
      by apply Hnn in Hrow. }
    assert (available db (tr_fromAccountId request) (tr_currency request)
            = available_balance (transfer_from_row now db request)) as Hav.
    { unfold available, transfer_from_row. by destruct (balances db !! _). }
    intros k row. cbn. rewrite !lookup_insert.
    repeat case_decide; [| | by apply Hnn]; intros [= <-]; cbn.
    + destruct (Hrows (tr_toAccountId request)). 
      unfold transfer_to_row. lia.
    + destruct (Hrows (tr_fromAccountId request)).
      unfold transfer_from_row in *. lia.
Qed.

(** C2.  [availableBalance ≥ 0] and [reservedBalance ≥ 0] do not hold
    in every reachable store: from the empty tables, a credit of
    -5.00000000 commits and leaves A with available = -5.00000000, and a
    reserve of -5.00000000 commits and leaves A with
    reserved = -5.00000000. *)
Theorem C2_negative_amount_drives_balance_negative :
  let db1 := (updateBalance 1 no_faults empty_db
                (update_request "A" credit (-5 * units))).1 in
  let db2 := (updateBalance 1 no_faults empty_db
                (update_request "A" reserve (-5 * units))).1 in
  reachable db1 ∧ available db1 "A" "USD" = -5 * units ∧
  reachable db2 ∧ reserved db2 "A" "USD" = -5 * units ∧
  available db2 "A" "USD" = 5 * units.
Proof.
  cbv zeta. repeat split; try (repeat constructor); vm_compute; reflexivity.
Qed.

(** C3.  A negative amount is not turned away: on the empty tables a
    credit of -5.00000000 returns a balance with
    available = -5.00000000, writes it, and records the operation. *)
Theorem C3_negative_amount_is_accepted :
  let out := updateBalance 1 no_faults empty_db
               (update_request "A" credit (-5 * units)) in
  out.2 = inr {| balanceId := 0; accountId := "A"; currency := "USD";
                 availableBalance := -5 * units; pendingBalance := 0;
                 totalBalance := -5 * units; reservedBalance := 0;
                 lastUpdated := 1 |} ∧
  available out.1 "A" "USD" = -5 * units ∧
  length (balance_operations out.1) = 1%nat ∧
  out.1 ≠ empty_db.
Proof.
  cbv zeta. repeat split; try (vm_compute; reflexivity).
  intros Heq. apply (f_equal next_uuid) in Heq. vm_compute in Heq. lia.
Qed.

(** ** C4: debit *)



(** ** C5, C6, C7: transfers *)

Lemma transfer_from_row_available now db request :
  available_balance (transfer_from_row now db request) =
  available db (tr_fromAccountId request) (tr_currency request).
Proof. unfold transfer_from_row, available. by destruct (balances db !! _). Qed.




(** A committed transfer from an account to itself: the write of the
    credit leg, computed from the balance read before the debit leg,
    replaces the write of the debit leg. *)
Lemma transferBalance_self_credits now faults db request db' r :
  tr_fromAccountId request = tr_toAccountId request →
  transferBalance now faults db request = (db', inr r) →
  available db' (tr_fromAccountId request) (tr_currency request) =
  available db (tr_fromAccountId request) (tr_currency request)
  + tr_amount request.
Proof.
  intros Heq (Hpos & Hle & -> & ->)%transferBalance_commit.
  unfold available at 1. cbn. rewrite <- Heq, lookup_insert_eq. cbn.
  rewrite <- transfer_from_row_available with (now := now).
  unfold transfer_to_row, transfer_from_row. by rewrite Heq.
Qed.





(** C6.  A transfer from an account to itself is not rejected: a
    transfer of 20 from A (available 50) to A commits, returns a source
    balance of 30 and a target balance of 70, leaves A with 70 in the
    table, and records one completed operation. *)
Theorem C6_self_transfer_is_accepted :
  let out := transferBalance 2 no_faults db_A50
               (transfer_request "A" "A" (20 * units)) in
  (∃ r, out.2 = inr r ∧
        availableBalance (fromBalance r) = 30 * units ∧
        availableBalance (toBalance r) = 70 * units) ∧
  available db_A50 "A" "USD" = 50 * units ∧
  available out.1 "A" "USD" = 70 * units ∧
  length (balance_operations out.1)
    = S (length (balance_operations db_A50)) ∧
  out.1 ≠ db_A50.
Proof.
  cbv zeta. split; [| split; [| split; [| split]]].
  - eexists. split; [vm_compute; reflexivity |]. by vm_compute.
  - by vm_compute.
  - by vm_compute.
  - by vm_compute.
  - intros Heq. apply (f_equal next_uuid) in Heq. vm_compute in Heq. lia.
Qed.

(** The single record a transfer leaves in the log. *)
Definition transfer_record (now : Timestamp) (i : uuid)
    (request : TransferRequest) : BalanceOperation :=
  mark_completed now
    (pending_operation now i (tr_fromAccountId request) "transfer"
       (tr_amount request) (tr_currency request) (tr_reference request)
       (tr_description request)
       (<["transferType" := "outbound"]>
          (<["toAccountId" := tr_toAccountId request]>
             (default ∅ (tr_metadata request))))).

(** C7, as it fails: a committed transfer from A to B appends one
    record, not two; it is filed under A and tagged outbound, and no
    record is filed under B. *)
Lemma C7_single_record_counterexample :
  let request := transfer_request "A" "B" (20 * units) in
  let out := transferBalance 3 no_faults db_A50_B10 request in
  (∃ r, out.2 = inr r) ∧
  balance_operations out.1 =
    balance_operations db_A50_B10 ++ [transfer_record 3 4 request] ∧
  length (balance_operations out.1)
    ≠ S (S (length (balance_operations db_A50_B10))) ∧
  filter (λ op, op_operationType op = "transfer" ∧ op_accountId op = "B")
    (balance_operations out.1) = [].
Proof.
  cbv zeta. split; [| split; [| split]].
  - eexists. vm_compute. reflexivity.
  - by vm_compute.
  - by vm_compute.
  - by vm_compute.
Qed.

(** C7, amended.  In a reachable store, every committed
    [transferBalance] appends exactly one operation record and changes
    no earlier one.  The record has type transfer, is filed under the
    source account, carries the returned operation id, the amount,
    currency and reference of the request, has [metadata.toAccountId]
    set to the target account and [metadata.transferType] set to
    outbound, and is completed. *)
Theorem C7_transfer_appends_one_outbound_record now faults db request db' r :
  reachable db →
  transferBalance now faults db request = (db', inr r) →
  let op := transfer_record now (operationId r) request in
  balance_operations db' = balance_operations db ++ [op] ∧
  length (balance_operations db') = S (length (balance_operations db)) ∧
  op_id op = operationId r ∧
  op_operationType op = "transfer" ∧
  op_accountId op = tr_fromAccountId request ∧
  op_amount op = tr_amount request ∧
  op_currency op = tr_currency request ∧
  op_reference op = tr_reference request ∧
  op_metadata op !! "toAccountId" = Some (tr_toAccountId request) ∧
  op_metadata op !! "transferType" = Some "outbound" ∧
  op_status op = completed ∧
  op_processedAt op = Some now.
Proof.
  intros Hreach (_ & _ & -> & ->)%transferBalance_commit op. subst op.
  assert (balance_operations (transfer_committed now db request) =
          balance_operations db ++
          [transfer_record now (transfer_operation_id db request) request])
    as Hlog.
  { cbn. rewrite complete_where_fresh; [done | |].
    - by apply reachable_uuids_fresh.
    - unfold transfer_operation_id. case_match; lia. }
  split; [exact Hlog |].
  split; [rewrite Hlog, length_app; cbn; lia |].
  cbn. repeat split; try done.
  - by rewrite lookup_insert_ne, lookup_insert_eq.
  - by rewrite lookup_insert_eq.
Qed.

Lemma C7_transfer_appends_one_outbound_record_witness :
  let request := transfer_request "A" "B" (20 * units) in
  balance_operations (transferBalance 3 no_faults db_A50_B10 request).1 =
  balance_operations db_A50_B10 ++ [transfer_record 3 4 request].
Proof.
  cbv zeta.
  assert (transferBalance 3 no_faults db_A50_B10
            (transfer_request "A" "B" (20 * units))
          = ((transferBalance 3 no_faults db_A50_B10
                (transfer_request "A" "B" (20 * units))).1,
             inr (transfer_result 3 db_A50_B10
                    (transfer_request "A" "B" (20 * units))))) as Hrun
    by (vm_compute; reflexivity).
  exact (proj1 (C7_transfer_appends_one_outbound_record 3 no_faults
                  db_A50_B10 (transfer_request "A" "B" (20 * units)) _ _
                  reachable_db_A50_B10 Hrun)).
Defined.

(** ** C10: the status of recorded operations *)

(** C10.  In every reachable store, every operation record is
    [completed] with [processedAt] set, hence never [pending], [failed]
    or [cancelled]; and an [updateBalance] or [transferBalance] that
    throws leaves the operation log as it was, so the pending record it
    may have inserted is gone. *)
Theorem C10_operations_are_completed db op :
  reachable db →
  op ∈ balance_operations db →
  (op_status op = completed ∧ is_Some (op_processedAt op) ∧
   op_status op ≠ pending ∧ op_status op ≠ failed ∧
   op_status op ≠ cancelled) ∧
  (∀ now faults request e,
     (updateBalance now faults db request).2 = inl e →
     balance_operations (updateBalance now faults db request).1
       = balance_operations db) ∧
  (∀ now faults request e,
     (transferBalance now faults db request).2 = inl e →
     balance_operations (transferBalance now faults db request).1
       = balance_operations db).
Proof.
  intros Hreach Hop.
  destruct (reachable_operations_settled db Hreach op Hop) as [Hst Hpr].
  split; [| split].
  - rewrite Hst. by repeat split.
  - intros now faults request e He.
    by rewrite (updateBalance_rollback _ _ _ _ _ He).
  - intros now faults request e He.
    by rewrite (transferBalance_rollback _ _ _ _ _ He).
Qed.

Lemma C10_operations_are_completed_witness :
  let op := mark_completed 1
              (pending_operation 1 1 "A" "credit" (50 * units) "USD" "ref"
                 "update" ∅) in
  op ∈ balance_operations db_A50 ∧
  op_status op = completed ∧ is_Some (op_processedAt op).
Proof.
  cbv zeta.
  assert (mark_completed 1
            (pending_operation 1 1 "A" "credit" (50 * units) "USD" "ref"
               "update" ∅) ∈ balance_operations db_A50) as Hop
    by (vm_compute; constructor).
  destruct (C10_operations_are_completed db_A50 _ reachable_db_A50 Hop)
    as ((Hst & Hpr & _) & _).
  split; [exact Hop |]. split; [exact Hst | exact Hpr].
Defined.

(** ** C8: reserve, then release *)




(** ** C9: daily snapshots *)

(** Rows of a list with pairwise different keys: the rows under the key
    of a member are that member alone. *)
Section UniqueKey.
Context {A K : Type} `{EqDecision K} (key : A → K).

Lemma filter_key_absent (k : K) (l : list A) :
  k ∉ key <$> l → filter (λ x, key x = k) l = [].
Proof.
  induction l as [| x l IH]; [done |]. rewrite fmap_cons, not_elem_of_cons.
  intros [Hne Hnot]. rewrite filter_cons, decide_False by done. auto.
Qed.

Lemma filter_key_singleton (l : list A) (x : A) :
  NoDup (key <$> l) → x ∈ l → filter (λ y, key y = key x) l = [x].
Proof.
  induction l as [| y l IH]; [by intros _ ?%elem_of_nil |].
  rewrite fmap_cons, NoDup_cons. intros [Hnot Hnodup] Hx.
  rewrite filter_cons. apply elem_of_cons in Hx as [<- | Hx].
  - rewrite decide_True by done. by rewrite filter_key_absent.
  - rewrite decide_False; [by apply IH |].
    intros Heq. apply Hnot. rewrite Heq. by apply list_elem_of_fmap_2.
Qed.
End UniqueKey.

(** A snapshot row holds the four amounts of a balance. *)
Definition captures (b : Balance) (s : Snapshot) : Prop :=
  snap_availableBalance s = availableBalance b ∧
  snap_pendingBalance s = pendingBalance b ∧
  snap_totalBalance s = totalBalance b ∧
  snap_reservedBalance s = reservedBalance b.

Definition snapshots_unique (db : Database) : Prop :=
  NoDup (snapshot_key <$> balance_snapshots db).

Section Upsert.
Variables (now : Timestamp) (account date : string).

Let upsert (b : Balance) (db : Database) : Database :=
  (upsert_snapshot now account b date db).2.

Lemma upsert_keys b db :
  snapshot_key <$> balance_snapshots (upsert b db) =
  if bool_decide ((account, currency b, date)
                    ∈ snapshot_key <$> balance_snapshots db)
  then snapshot_key <$> balance_snapshots db
  else (snapshot_key <$> balance_snapshots db)
         ++ [(account, currency b, date)].
Proof.
  unfold upsert, upsert_snapshot. case_bool_decide; cbn.
  - rewrite <- list_fmap_compose. apply Forall_fmap_ext_1, Forall_forall.
    intros s _. cbn. by case_decide.
  - by rewrite fmap_app.
Qed.

Lemma upsert_unique b db : snapshots_unique db → snapshots_unique (upsert b db).
Proof.
  unfold snapshots_unique. rewrite upsert_keys.
  case_bool_decide as Hin; [done |]. intros Hnodup.
  apply NoDup_app. split; [done |]. split; [| apply NoDup_singleton].
  by intros k Hk ->%list_elem_of_singleton.
Qed.

Lemma upsert_captured b db :
  ∃ s, s ∈ balance_snapshots (upsert b db) ∧
       snapshot_key s = (account, currency b, date) ∧
       captures b s ∧ snap_createdAt s = now.
Proof.
  unfold upsert, upsert_snapshot. case_bool_decide as Hin; cbn.
  - apply list_elem_of_fmap in Hin as (s & Hkey & Hs).
    exists (overwrite_snapshot now b s). split.
    + apply list_elem_of_fmap. exists s. by rewrite decide_True.
    + by rewrite Hkey.
  - eexists. split; [apply elem_of_app; right; apply list_elem_of_here |].
    done.
Qed.

Lemma upsert_other b db s :
  s ∈ balance_snapshots db →
  snapshot_key s ≠ (account, currency b, date) →
  s ∈ balance_snapshots (upsert b db).
Proof.
  intros Hs Hne. unfold upsert, upsert_snapshot. case_bool_decide; cbn.
  - apply list_elem_of_fmap. exists s. by rewrite decide_False.
  - apply elem_of_app. by left.
Qed.

Lemma snapshots_after_unique bs db :
  snapshots_unique db →
  snapshots_unique (snapshots_after now account date bs db).
Proof.
  revert db. induction bs as [| b bs IH]; intros db Hdb; [done |].
  apply IH. by apply upsert_unique.
Qed.

Lemma snapshots_after_other bs db s :
  s ∈ balance_snapshots db →
  (∀ b, b ∈ bs → snapshot_key s ≠ (account, currency b, date)) →
  s ∈ balance_snapshots (snapshots_after now account date bs db).
Proof.
  revert db. induction bs as [| b bs IH]; intros db Hs Hne; [done |].
  apply IH.
  - apply upsert_other; [done |]. apply Hne, list_elem_of_here.
  - intros b' Hb'. by apply Hne, list_elem_of_further.
Qed.

(** After the loop, every balance it went over has its row. *)
Lemma snapshots_after_captured bs db b :
  NoDup (currency <$> bs) → b ∈ bs →
  ∃ s, s ∈ balance_snapshots (snapshots_after now account date bs db) ∧
       snapshot_key s = (account, currency b, date) ∧
       captures b s ∧ snap_createdAt s = now.
Proof.
  revert db. induction bs as [| b0 bs IH]; intros db Hnodup Hb.
  { by apply elem_of_nil in Hb. }
  rewrite fmap_cons, NoDup_cons in Hnodup. destruct Hnodup as [Hnot Hnodup].
  apply elem_of_cons in Hb as [-> | Hb]; [| by apply IH].
  destruct (upsert_captured b0 db) as (s & Hs & Hkey & Hcap & Htime).
  exists s. split; [| done].
  apply (snapshots_after_other bs (upsert b0 db)); [done |].
  intros b' Hb'. rewrite Hkey. intros [= Heq]. apply Hnot. rewrite Heq.
  by apply list_elem_of_fmap_2.
Qed.

(** If every balance already has its row, the loop adds none. *)
Lemma snapshots_after_keys bs db :
  (∀ b, b ∈ bs → (account, currency b, date)
                   ∈ snapshot_key <$> balance_snapshots db) →
  snapshot_key <$> balance_snapshots (snapshots_after now account date bs db)
  = snapshot_key <$> balance_snapshots db.
Proof.
  revert db. induction bs as [| b bs IH]; intros db Hall; [done |].
  assert (snapshot_key <$> balance_snapshots (upsert b db)
          = snapshot_key <$> balance_snapshots db) as Hkeys.
  { rewrite upsert_keys, bool_decide_eq_true_2; [done |].
    apply Hall, list_elem_of_here. }
  simpl. fold (upsert b db). rewrite IH; [done |].
  intros b' Hb'. rewrite Hkeys. by apply Hall, list_elem_of_further.
Qed.
End Upsert.

Lemma reachable_snapshots_unique db : reachable db → snapshots_unique db.
Proof.
  revert db. apply reachable_ind_commit; try done.
  - apply NoDup_nil_2.
  - intros now db account date bs. apply snapshots_after_unique.
Qed.

(** What [getAllBalances] returns: the stored rows of the account, one
    per currency. *)
Lemma elem_of_snapshot_source db account b :
  b ∈ snapshot_source db account ↔
  ∃ cur row, balances db !! (account, cur) = Some row ∧
             b = mapRowToBalance account cur row.
Proof.
  unfold snapshot_source, select_balances_of. cbn [fst].
  rewrite merge_sort_Permutation, list_elem_of_fmap. split.
  - intros ([[acc cur] row] & -> & [Hacc Hin]%list_elem_of_filter).
    cbn in Hacc. subst acc. apply elem_of_map_to_list in Hin. eauto.
  - intros (cur & row & Hrow & ->). exists ((account, cur), row).
    split; [done |]. apply list_elem_of_filter. split; [done |].
    by apply elem_of_map_to_list.
Qed.

Lemma snapshot_source_currencies db account :
  NoDup (currency <$> snapshot_source db account).
Proof.
  unfold snapshot_source, select_balances_of. cbn [fst].
  rewrite merge_sort_Permutation, <- list_fmap_compose.
  apply NoDup_fmap_2_strong; [| apply NoDup_filter, NoDup_map_to_list].
  intros [[a1 c1] r1] [[a2 c2] r2]
    [Ha1 Hin1%elem_of_map_to_list]%list_elem_of_filter
    [Ha2 Hin2%elem_of_map_to_list]%list_elem_of_filter Hcur.
  cbn in *. subst. by simplify_eq.
Qed.

Lemma snapshot_source_balances db db' account :
  balances db' = balances db →
  snapshot_source db' account = snapshot_source db account.
Proof.
  intros Heq. unfold snapshot_source, select_balances_of. by rewrite Heq.
Qed.

(** C9.  Take a reachable store and two committed calls of
    [createDailySnapshot] for the same account and date, one right
    after the other.  The second call adds no row to
    [balance_snapshots] and leaves the balances alone; no two snapshot
    rows share an (account, currency, date) key; and for every currency
    in which the account has a balance, the rows under (account,
    currency, date) are exactly one row, which holds the four amounts of
    that balance and the timestamp of the second call.  With storage
    not rejecting, both calls commit. *)
Theorem C9_daily_snapshot_idempotent
    now1 now2 faults1 faults2 db account date db1 db2 u1 u2 :
  reachable db →
  createDailySnapshot now1 faults1 db account date = (db1, inr u1) →
  createDailySnapshot now2 faults2 db1 account date = (db2, inr u2) →
  balances db2 = balances db ∧
  length (balance_snapshots db2) = length (balance_snapshots db1) ∧
  NoDup (snapshot_key <$> balance_snapshots db2) ∧
  (∀ cur row,
     balances db !! (account, cur) = Some row →
     ∃ s, filter (λ s', snapshot_key s' = (account, cur, date))
            (balance_snapshots db2) = [s] ∧
          snap_availableBalance s = available_balance row ∧
          snap_pendingBalance s = pending_balance row ∧
          snap_totalBalance s = total_balance row ∧
          snap_reservedBalance s = reserved_balance row ∧
          snap_createdAt s = now2) ∧
  (∃ d1 d2,
     createDailySnapshot now1 no_faults db account date = (d1, inr tt) ∧
     createDailySnapshot now2 no_faults d1 account date = (d2, inr tt)).
Proof.
  intros Hreach ->%createDailySnapshot_commit ->%createDailySnapshot_commit.
  set (bs := snapshot_source db account).
  set (d1 := snapshots_after now1 account date bs db).
  destruct (snapshots_after_frame now1 account date bs db) as (Hbal1 & _).
  fold d1 in Hbal1.
  rewrite (snapshot_source_balances db d1 account Hbal1). fold bs.
  set (d2 := snapshots_after now2 account date bs d1).
  destruct (snapshots_after_frame now2 account date bs d1) as (Hbal2 & _).
  fold d2 in Hbal2.
  assert (snapshots_unique d2) as Hunique.
  { do 2 apply snapshots_after_unique. by apply reachable_snapshots_unique. }
  assert (NoDup (currency <$> bs)) as Hcur
    by apply snapshot_source_currencies.
  split; [by rewrite Hbal2 |]. split; [| split; [exact Hunique | split]].
  - rewrite <- (length_fmap snapshot_key (balance_snapshots d2)).
    rewrite <- (length_fmap snapshot_key (balance_snapshots d1)).
    unfold d2. rewrite snapshots_after_keys; [done |].
    intros b Hb.
    destruct (snapshots_after_captured now1 account date bs db b Hcur Hb)
      as (s & Hs & <- & _).
    by apply list_elem_of_fmap_2.
  - intros cur row Hrow.
    assert (mapRowToBalance account cur row ∈ bs) as Hb.
    { apply elem_of_snapshot_source. eauto. }
    destruct (snapshots_after_captured now2 account date bs d1 _ Hcur Hb)
      as (s & Hs & Hkey & (Ha & Hp & Ht & Hr) & Htime).
    exists s. split; [| done].
    cbn [currency mapRowToBalance] in Hkey. rewrite <- Hkey.
    by apply filter_key_singleton.
  - exists d1, d2. rewrite !createDailySnapshot_run. fold bs d1.
    rewrite (snapshot_source_balances db d1 account Hbal1). done.
Qed.


(** A's snapshot for one day, taken once and taken twice. *)
Definition db_snapshot_once : Database :=
  (createDailySnapshot 5 no_faults db_A50_B10 "A" "2024-01-01").1.

Definition db_snapshot_twice : Database :=
  (createDailySnapshot 6 no_faults db_snapshot_once "A" "2024-01-01").1.

Lemma C9_daily_snapshot_idempotent_witness :
  length (balance_snapshots db_snapshot_once) = 1%nat ∧
  length (balance_snapshots db_snapshot_twice) = 1%nat ∧
  balance_snapshots db_snapshot_twice =
    [{| snap_id := 4; snap_accountId := "A"; snap_currency := "USD";
        snap_availableBalance := 50 * units; snap_pendingBalance := 0;
        snap_totalBalance := 50 * units; snap_reservedBalance := 0;
        snap_date := "2024-01-01"; snap_createdAt := 6 |}].
Proof.
  assert (createDailySnapshot 5 no_faults db_A50_B10 "A" "2024-01-01"
          = (db_snapshot_once, inr tt)) as Hrun1
    by (vm_compute; reflexivity).
  assert (createDailySnapshot 6 no_faults db_snapshot_once "A" "2024-01-01"
          = (db_snapshot_twice, inr tt)) as Hrun2
    by (vm_compute; reflexivity).
  pose proof (C9_daily_snapshot_idempotent 5 6 no_faults no_faults
                db_A50_B10 "A" "2024-01-01" db_snapshot_once
                db_snapshot_twice tt tt reachable_db_A50_B10 Hrun1 Hrun2)
    as (_ & Hlen & _ & _).
  assert (length (balance_snapshots db_snapshot_once) = 1%nat) as Hlen1
    by (vm_compute; reflexivity).
  split; [exact Hlen1 |]. split; [exact (eq_trans Hlen Hlen1) |].
  vm_compute. reflexivity.
Defined.

(** * Further properties of the ledger *)

(** ** [updateBalance]: credit, reserve, release, zero *)











(** X4.  A zero amount is turned away before anything is read: whatever
    the operation type, the account and the storage faults,
    [updateBalance] throws and the tables are those before the call (no
    balance row is created, no operation is recorded).  What it throws
    is [Error('Amount cannot be zero')], unless storage rejected
    [BEGIN]. *)
Theorem X4_zero_amount_is_rejected_first now faults db request :
  req_amount request = 0 →
  updateBalance now faults db request =
  (db, inl (if faults 0%nat then QueryRejected 0
            else Error "Amount cannot be zero")).
Proof.
  intros Hzero. unfold updateBalance, transaction, updateBalance_body, BEGIN.
  rewrite !bind_run. unfold query at 1. rewrite Hzero.
  destruct (faults 0%nat); [done |]. cbn [Z.eqb].
  by rewrite bind_run, throw_run.
Qed.

Lemma X4_zero_amount_is_rejected_first_witness :
  updateBalance 2 no_faults db_A100 (update_request "A" debit 0)
  = (db_A100, inl (Error "Amount cannot be zero")).
Proof.
  exact (X4_zero_amount_is_rejected_first 2 no_faults db_A100
           (update_request "A" debit 0) eq_refl).
Defined.

(** ** What [updateBalance] leaves alone *)

(** X5.  Whatever its outcome, [updateBalance] changes no balance row
    other than the one of the request's (account, currency), never
    touches the snapshot table, and leaves the identifier and the
    pending amount of the row it rewrites as they were. *)
Theorem X5_update_touches_one_row now faults db request :
  let out := updateBalance now faults db request in
  let key := (req_accountId request, req_currency request) in
  (∀ k, k ≠ key → balances out.1 !! k = balances db !! k) ∧
  balance_snapshots out.1 = balance_snapshots db ∧
  (∀ row, balances db !! key = Some row →
     ∃ row', balances out.1 !! key = Some row' ∧
             row_id row' = row_id row ∧
             pending_balance row' = pending_balance row).
Proof.
  intros out key. subst out.
  pose proof (updateBalance_rollback now faults db request) as Hback.
  destruct (updateBalance now faults db request) as [db' [e | b]] eqn:E.
  - cbn in *. rewrite (Hback e eq_refl).
    split; [done |]. split; [done |]. eauto.
  - apply updateBalance_commit in E as (_ & _ & -> & _). cbn.
    fold key. split; [| split; [done |]].
    + intros k Hk. by rewrite lookup_insert_ne.
    + intros row Hrow. rewrite lookup_insert_eq. eexists. split; [done |].
      unfold update_row_written, update_row. fold key. by rewrite Hrow.
Qed.

(** The record a committed [updateBalance] leaves in the log. *)
Definition update_record (now : Timestamp) (i : uuid)
    (request : BalanceUpdateRequest) : BalanceOperation :=
  {| op_id := i; op_accountId := req_accountId request;
     op_operationType := operationType_name (req_operationType request);
     op_amount := req_amount request;
     op_currency := req_currency request;
     op_reference := req_reference request;
     op_description := req_description request;
     op_metadata := default ∅ (req_metadata request);
     op_createdAt := now; op_processedAt := Some now;
     op_status := completed |}.

Lemma updateBalance_commit_log now faults db request db' b :
  reachable db →
  updateBalance now faults db request = (db', inr b) →
  ∃ i,
    balance_operations db' =
      balance_operations db ++ [update_record now i request] ∧
    (∀ op, op ∈ balance_operations db → op_id op ≠ i).
Proof.
  intros Hreach (_ & _ & -> & _)%updateBalance_commit.
  pose proof (reachable_uuids_fresh db Hreach) as Hfresh.
  assert (next_uuid db ≤ update_operation_id db request)%nat as Hle.
  { unfold update_operation_id. case_match; lia. }
  exists (update_operation_id db request). split.
  - cbn. by rewrite complete_where_fresh.
  - intros op Hop%Hfresh. lia.
Qed.



(** The reachable stores again, with the snapshot loop running over the
    balances [createDailySnapshot] reads. *)
Lemma reachable_ind_source (I : Database → Prop) :
  I empty_db →
  (∀ now db request, reachable db → I db →
                     I (update_committed now db request)) →
  (∀ now db request, reachable db → I db →
                     I (transfer_committed now db request)) →
  (∀ now db account date, reachable db → I db →
     I (snapshots_after now account date (snapshot_source db account) db)) →
  ∀ db, reachable db → I db.
Proof.
  intros Hempty Hupdate Htransfer Hsnapshot db Hreach.
  induction Hreach as [| now faults db request Hreach IH
                        | now faults db request Hreach IH
                        | now faults db account date Hreach IH].
  - exact Hempty.
  - pose proof (updateBalance_rollback now faults db request) as Hback.
    destruct (updateBalance now faults db request) as [db' [e | b]] eqn:E.
    + by rewrite (Hback e eq_refl).
    + apply updateBalance_commit in E as (_ & _ & -> & _). by apply Hupdate.
  - pose proof (transferBalance_rollback now faults db request) as Hback.
    destruct (transferBalance now faults db request) as [db' [e | r]] eqn:E.
    + by rewrite (Hback e eq_refl).
    + apply transferBalance_commit in E as (_ & _ & -> & _).
      by apply Htransfer.
  - pose proof (transaction_rollback
                  (createDailySnapshot_body now account date) faults db)
      as Hback.
    fold (createDailySnapshot now faults db account date) in Hback.
    destruct (createDailySnapshot now faults db account date)
      as [db' [e | u]] eqn:E.
    + by rewrite (Hback e eq_refl).
    + apply createDailySnapshot_commit in E as ->. by apply Hsnapshot.
Qed.

Lemma upsert_snapshot_pending now account b date db :
  pendingBalance b = 0 →
  (∀ s, s ∈ balance_snapshots db → snap_pendingBalance s = 0) →
  ∀ s, s ∈ balance_snapshots (upsert_snapshot now account b date db).2 →
       snap_pendingBalance s = 0.
Proof.
  intros Hb Hdb s. unfold upsert_snapshot. case_bool_decide; cbn.
  - intros (s' & -> & Hs')%list_elem_of_fmap. case_decide; cbn; auto.
  - intros [Hs | ->%list_elem_of_singleton]%elem_of_app; cbn; auto.
Qed.

Lemma snapshots_after_pending now account date bs db :
  (∀ b, b ∈ bs → pendingBalance b = 0) →
  (∀ s, s ∈ balance_snapshots db → snap_pendingBalance s = 0) →
  ∀ s, s ∈ balance_snapshots (snapshots_after now account date bs db) →
       snap_pendingBalance s = 0.
Proof.
  revert db. induction bs as [| b bs IH]; intros db Hbs Hdb; [done |].
  apply IH.
  - intros b' Hb'. by apply Hbs, list_elem_of_further.
  - apply upsert_snapshot_pending; [| done]. apply Hbs, list_elem_of_here.
Qed.

(** X7.  No operation of the service ever writes the pending amount:
    in every reachable store every balance row has
    [pending_balance = 0], the column default, and so has every
    snapshot row. *)
Theorem X7_pending_balance_is_never_written db :
  reachable db →
  (∀ account cur row,
     balances db !! (account, cur) = Some row → pending_balance row = 0) ∧
  (∀ s, s ∈ balance_snapshots db → snap_pendingBalance s = 0).
Proof.
  revert db. apply reachable_ind_source.
  - split; [intros ??? | intros ?]; cbn; [by rewrite lookup_empty |].
    by intros ?%elem_of_nil.
  - intros now db request _ [Hrows Hsnaps]. split; [| done].
    intros account cur row. cbn. rewrite lookup_insert. case_decide.
    + intros [= <-]. cbn. unfold update_row.
      destruct (balances db !! _) as [row |] eqn:Hrow; [| done].
      by apply Hrows in Hrow.
    + apply Hrows.
  - intros now db request _ [Hrows Hsnaps]. split; [| done].
    intros account cur row. cbn. rewrite !lookup_insert.
    repeat case_decide; [| | apply Hrows]; intros [= <-]; cbn.
    + unfold transfer_to_row.
      destruct (balances db !! _) as [row |] eqn:Hrow; [| done].
      by apply Hrows in Hrow.
    + unfold transfer_from_row.
      destruct (balances db !! _) as [row |] eqn:Hrow; [| done].
      by apply Hrows in Hrow.
  - intros now db account date _ [Hrows Hsnaps].
    destruct (snapshots_after_frame now account date
                (snapshot_source db account) db) as (Hbal & _).
    split; [intros ???; rewrite Hbal; apply Hrows |].
    apply snapshots_after_pending; [| done].
    intros b (cur & row & Hrow & ->)%elem_of_snapshot_source. cbn.
    by apply Hrows in Hrow.
Qed.

Lemma X7_pending_balance_is_never_written_witness :
  pending_balance row_A70_reserved30 = 0.
Proof.
  assert (reachable db_A70_reserved30) as Hreach by repeat constructor.
  exact (proj1 (X7_pending_balance_is_never_written _ Hreach) "A" "USD"
           row_A70_reserved30 ltac:(vm_compute; reflexivity)).
Defined.

(** X8.  Callers that pass positive amounts cannot drive a balance
    negative: from a store where every row has non-negative available
    and reserved amounts, an [updateBalance] with a positive amount, a
    [transferBalance] and a [createDailySnapshot], committed or not,
    each leave such a store. *)
Theorem X8_positive_amounts_keep_balances_nonnegative db :
  nonnegative db →
  (∀ now faults request,
     0 < req_amount request →
     nonnegative (updateBalance now faults db request).1) ∧
  (∀ now faults request,
     nonnegative (transferBalance now faults db request).1) ∧
  (∀ now faults account date,
     nonnegative (createDailySnapshot now faults db account date).1).
Proof.
  intros Hnn. split; [| split].
  - intros now faults request Hpos.
    by apply updateBalance_keeps_nonnegative.
  - intros now faults request. by apply transferBalance_keeps_nonnegative.
  - intros now faults account date.
    pose proof (transaction_rollback
                  (createDailySnapshot_body now account date) faults db)
      as Hback.
    fold (createDailySnapshot now faults db account date) in Hback.
    destruct (createDailySnapshot now faults db account date)
      as [db' [e | u]] eqn:E.
    + by rewrite (Hback e eq_refl).
    + apply createDailySnapshot_commit in E as ->. intros k row.
      cbn [fst].
      destruct (snapshots_after_frame now account date
                  (snapshot_source db account) db) as (-> & _).
      apply Hnn.
Qed.

Lemma X8_positive_amounts_keep_balances_nonnegative_witness :
  nonnegative db_A50.
Proof.
  assert (nonnegative empty_db) as Hempty.
  { intros k row. cbn. by rewrite lookup_empty. }
  exact (proj1 (X8_positive_amounts_keep_balances_nonnegative empty_db Hempty)
           1 no_faults (update_request "A" credit (50 * units))
           ltac:(by vm_compute)).
Defined.

(** ** [transferBalance]: refusals and conservation *)

(** X9.  With storage not rejecting, [transferBalance] commits exactly
    when the amount is positive and the source's available amount
    covers it.  An amount of zero or less throws
    [Error('Transfer amount must be positive')]; a positive amount
    above the source's available amount throws
    [Error('Insufficient balance for transfer')], whatever the source
    holds in reserve and in particular when the source has no balance
    row.  In both cases the tables are unchanged: no balance row is
    created for either account and nothing is logged. *)
Theorem X9_transfer_refusals now db request :
  let source := tr_fromAccountId request in
  let cur := tr_currency request in
  let x := tr_amount request in
  let out := transferBalance now no_faults db request in
  (x ≤ 0 → out = (db, inl (Error "Transfer amount must be positive"))) ∧
  (0 < x → available db source cur < x →
   out = (db, inl (Error "Insufficient balance for transfer"))) ∧
  (0 < x → balances db !! (source, cur) = None →
   out = (db, inl (Error "Insufficient balance for transfer"))) ∧
  ((∃ r, out.2 = inr r) ↔ 0 < x ∧ x ≤ available db source cur).
Proof.
  intros source cur x out. subst out. rewrite transferBalance_run.
  fold source cur x.
  destruct (Z.leb_spec x 0) as [Hle | Hpos];
    [| destruct (Z.ltb_spec (available db source cur) x) as [Hlt | Hge]].
  - split; [done |]. split; [lia |]. split; [lia |].
    split; [by intros [r [=]] | lia].
  - split; [lia |]. split; [done |]. split; [done |].
    split; [by intros [r [=]] | lia].
  - split; [lia |]. split; [lia |]. split.
    + intros _ Hrow. unfold available in Hge. rewrite Hrow in Hge.
      cbn in Hge. lia.
    + split; [done | by eexists].
Qed.

Lemma X9_transfer_refusals_witness :
  transferBalance 3 no_faults db_A50_B10
    (transfer_request "A" "B" (80 * units))
  = (db_A50_B10, inl (Error "Insufficient balance for transfer")) ∧
  transferBalance 3 no_faults db_A50_B10
    (transfer_request "C" "B" (1 * units))
  = (db_A50_B10, inl (Error "Insufficient balance for transfer")) ∧
  transferBalance 3 no_faults db_A50_B10
    (transfer_request "A" "B" (-1 * units))
  = (db_A50_B10, inl (Error "Transfer amount must be positive")).
Proof.
  destruct (X9_transfer_refusals 3 db_A50_B10
              (transfer_request "A" "B" (80 * units))) as (_ & Hshort & _).
  destruct (X9_transfer_refusals 3 db_A50_B10
              (transfer_request "C" "B" (1 * units))) as (_ & _ & Hnone & _).
  destruct (X9_transfer_refusals 3 db_A50_B10
              (transfer_request "A" "B" (-1 * units))) as (Hsign & _).
  split; [| split].
  - apply Hshort; by vm_compute.
  - apply Hnone; by vm_compute.
  - apply Hsign. vm_compute. discriminate.
Defined.



(** ** [getOrCreateBalance] *)

(** X11.  With storage not rejecting, [getOrCreateBalance] returns a
    balance of the account and currency asked for, which is the one
    stored afterwards.  If a row was there, it is returned as it is and
    the tables are unchanged; if not, the returned balance has all four
    amounts zero.  No other balance row, no operation record and no
    snapshot is touched, and asking again returns the same balance and
    changes nothing. *)
Theorem X11_getOrCreateBalance_reads_or_creates now now' account cur n db :
  ∃ b n' db',
    getOrCreateBalance now account cur no_faults (n, db)
      = inr (b, (n', db')) ∧
    getBalance db' account cur = Some b ∧
    accountId b = account ∧ currency b = cur ∧
    (∀ row, balances db !! (account, cur) = Some row →
            db' = db ∧ b = mapRowToBalance account cur row) ∧
    (balances db !! (account, cur) = None →
     availableBalance b = 0 ∧ pendingBalance b = 0 ∧
     totalBalance b = 0 ∧ reservedBalance b = 0 ∧ lastUpdated b = now) ∧
    (∀ k, k ≠ (account, cur) → balances db' !! k = balances db !! k) ∧
    balance_operations db' = balance_operations db ∧
    balance_snapshots db' = balance_snapshots db ∧
    getOrCreateBalance now' account cur no_faults (n', db')
      = inr (b, (S n', db')).
Proof.
  destruct (balances db !! (account, cur)) as [row |] eqn:Hrow.
  - exists (mapRowToBalance account cur row), (S n), db.
    rewrite !getOrCreateBalance_run, Hrow. unfold getBalance. rewrite Hrow.
    split; [done |]. split; [done |]. split; [done |]. split; [done |].
    split; [by intros row' [= <-] |]. split; [done |]. done.
  - eexists _, _, _. rewrite getOrCreateBalance_run, Hrow.
    split; [reflexivity |]. rewrite getOrCreateBalance_run.
    unfold getBalance. cbn. rewrite lookup_insert_eq.
    split; [done |]. split; [done |]. split; [done |]. split; [done |].
    split; [done |]. split; [| done].
    intros k Hk. by rewrite lookup_insert_ne.
Qed.

(** ** What later operations keep *)

(** [evolves db db']: the store [db'] is what some sequence of public
    operations, each committed or rolled back, makes of [db]. *)
Inductive evolves (db : Database) : Database → Prop :=
| evolves_here :
    evolves db db
| evolves_updateBalance now faults db' request :
    evolves db db' →
    evolves db (updateBalance now faults db' request).1
| evolves_transferBalance now faults db' request :
    evolves db db' →
    evolves db (transferBalance now faults db' request).1
| evolves_createDailySnapshot now faults db' account date :
    evolves db db' →
    evolves db (createDailySnapshot now faults db' account date).1.

Lemma evolves_reachable db db' : reachable db → evolves db db' → reachable db'.
Proof. intros Hreach. induction 1; [done | by constructor..]. Qed.

Lemma evolves_ind_commit (db : Database) (I : Database → Prop) :
  I db →
  (∀ now db' request, evolves db db' → I db' →
                      I (update_committed now db' request)) →
  (∀ now db' request, evolves db db' → I db' →
                      I (transfer_committed now db' request)) →
  (∀ now db' account date, evolves db db' → I db' →
     I (snapshots_after now account date (snapshot_source db' account) db')) →
  ∀ db', evolves db db' → I db'.
Proof.
  intros Hhere Hupdate Htransfer Hsnapshot db' Hev.
  induction Hev as [| now faults db' request Hev IH
                     | now faults db' request Hev IH
                     | now faults db' account date Hev IH].
  - exact Hhere.
  - pose proof (updateBalance_rollback now faults db' request) as Hback.
    destruct (updateBalance now faults db' request) as [d [e | b]] eqn:E.
    + by rewrite (Hback e eq_refl).
    + apply updateBalance_commit in E as (_ & _ & -> & _). by apply Hupdate.
  - pose proof (transferBalance_rollback now faults db' request) as Hback.
    destruct (transferBalance now faults db' request) as [d [e | r]] eqn:E.
    + by rewrite (Hback e eq_refl).
    + apply transferBalance_commit in E as (_ & _ & -> & _).
      by apply Htransfer.
  - pose proof (transaction_rollback
                  (createDailySnapshot_body now account date) faults db')
      as Hback.
    fold (createDailySnapshot now faults db' account date) in Hback.
    destruct (createDailySnapshot now faults db' account date)
      as [d [e | u]] eqn:E.
    + by rewrite (Hback e eq_refl).
    + apply createDailySnapshot_commit in E as ->. by apply Hsnapshot.
Qed.

Lemma upsert_snapshot_keeps now account b date db s :
  s ∈ balance_snapshots db →
  ∃ s', s' ∈ balance_snapshots (upsert_snapshot now account b date db).2 ∧
        snapshot_key s' = snapshot_key s ∧ snap_id s' = snap_id s.
Proof.
  intros Hs. unfold upsert_snapshot. case_bool_decide; cbn.
  - eexists. split; [by apply list_elem_of_fmap_2 |]. by case_decide.
  - exists s. split; [| done]. apply elem_of_app. by left.
Qed.

Lemma snapshots_after_keeps now account date bs db s :
  s ∈ balance_snapshots db →
  ∃ s', s' ∈ balance_snapshots (snapshots_after now account date bs db) ∧
        snapshot_key s' = snapshot_key s ∧ snap_id s' = snap_id s.
Proof.
  revert db s. induction bs as [| b bs IH]; intros db s Hs; [eauto |].
  destruct (upsert_snapshot_keeps now account b date db s Hs)
    as (s1 & Hs1 & Hkey1 & Hid1).
  destruct (IH _ _ Hs1) as (s2 & Hs2 & Hkey2 & Hid2).
  exists s2. split; [done |]. split; congruence.
Qed.

(** X12.  Nothing is ever deleted.  A balance row that exists stays in
    place through every later sequence of operations, with the same
    identifier and pending amount; a snapshot row stays in place with
    the same identifier and (account, currency, date) key. *)
Theorem X12_rows_are_never_deleted db db' :
  evolves db db' →
  (∀ account cur row,
     balances db !! (account, cur) = Some row →
     ∃ row', balances db' !! (account, cur) = Some row' ∧
             row_id row' = row_id row ∧
             pending_balance row' = pending_balance row) ∧
  (∀ s, s ∈ balance_snapshots db →
     ∃ s', s' ∈ balance_snapshots db' ∧
           snapshot_key s' = snapshot_key s ∧ snap_id s' = snap_id s).
Proof.
  revert db'. apply evolves_ind_commit.
  - split; eauto.
  - intros now d request _ [Hrows Hsnaps]. split; [| done].
    intros account cur row (row' & Hrow' & Hid & Hpend)%Hrows. cbn.
    rewrite lookup_insert. case_decide as Hkey; [| eauto].
    eexists. split; [done |]. cbn. unfold update_row.
    rewrite Hkey, Hrow'. done.
  - intros now d request _ [Hrows Hsnaps]. split; [| done].
    intros account cur row (row' & Hrow' & Hid & Hpend)%Hrows. cbn.
    destruct (decide ((tr_toAccountId request, tr_currency request)
                      = (account, cur))) as [Hto | Hto].
    { rewrite Hto, lookup_insert_eq. eexists. split; [done |]. cbn.
      unfold transfer_to_row. by rewrite Hto, Hrow'. }
    rewrite lookup_insert_ne by done.
    destruct (decide ((tr_fromAccountId request, tr_currency request)
                      = (account, cur))) as [Hfrom | Hfrom].
    { rewrite Hfrom, lookup_insert_eq. eexists. split; [done |]. cbn.
      unfold transfer_from_row. by rewrite Hfrom, Hrow'. }
    rewrite lookup_insert_ne by done. eauto.
  - intros now d account date _ [Hrows Hsnaps].
    destruct (snapshots_after_frame now account date
                (snapshot_source d account) d) as (Hbal & _).
    split; [intros ???; rewrite Hbal; eauto |].
    intros s (s1 & Hs1 & Hkey1 & Hid1)%Hsnaps.
    destruct (snapshots_after_keeps now account date
                (snapshot_source d account) d s1 Hs1)
      as (s2 & Hs2 & Hkey2 & Hid2).
    exists s2. split; [done |]. split; congruence.
Qed.

Lemma evolves_db_A50_B10 : evolves db_A50 db_A50_B10.
Proof. repeat constructor. Qed.

Lemma X12_rows_are_never_deleted_witness :
  ∃ row', balances db_A50_B10 !! ("A", "USD") = Some row' ∧
          row_id row' = 0%nat ∧ pending_balance row' = 0.
Proof.
  exact (proj1 (X12_rows_are_never_deleted db_A50 db_A50_B10
                  evolves_db_A50_B10)
           "A" "USD"
           {| row_id := 0; available_balance := 50 * units;
              pending_balance := 0; total_balance := 50 * units;
              reserved_balance := 0; last_updated := 1 |}
           ltac:(vm_compute; reflexivity)).
Defined.

(** X13.  The operation log is append-only.  From a reachable store,
    whatever operations follow, the log of the later store is the
    earlier log followed by new records, all of them completed: no
    record is removed, moved or altered. *)
Theorem X13_operation_log_is_append_only db db' :
  reachable db →
  evolves db db' →
  ∃ later,
    balance_operations db' = balance_operations db ++ later ∧
    ∀ op, op ∈ later → op_status op = completed.
Proof.
  intros Hreach. revert db'. apply evolves_ind_commit.
  - exists []. split; [by rewrite app_nil_r | by intros ? ?%elem_of_nil].
  - intros now d request Hev (later & Hlog & Hdone).
    pose proof (reachable_uuids_fresh d (evolves_reachable _ _ Hreach Hev))
      as Hfresh.
    eexists (later ++ [_]). cbn. split.
    + rewrite complete_where_fresh, Hlog, <- app_assoc; [done.. |].
      unfold update_operation_id. case_match; lia.
    + intros op [Hop | ->%list_elem_of_singleton]%elem_of_app; auto.
  - intros now d request Hev (later & Hlog & Hdone).
    pose proof (reachable_uuids_fresh d (evolves_reachable _ _ Hreach Hev))
      as Hfresh.
    eexists (later ++ [_]). cbn. split.
    + rewrite complete_where_fresh, Hlog, <- app_assoc; [done.. |].
      unfold transfer_operation_id. case_match; lia.
    + intros op [Hop | ->%list_elem_of_singleton]%elem_of_app; auto.
  - intros now d account date _ (later & Hlog & Hdone).
    destruct (snapshots_after_frame now account date
                (snapshot_source d account) d) as (_ & -> & _).
    eauto.
Qed.

Lemma X13_operation_log_is_append_only_witness :
  ∃ later, balance_operations db_A50_B10
           = balance_operations db_A50 ++ later.
Proof.
  destruct (X13_operation_log_is_append_only db_A50 db_A50_B10
              reachable_db_A50 evolves_db_A50_B10) as (later & Hlog & _).
  by exists later.
Defined.

(** ** [getAllBalances] *)

#[global] Instance currency_le_total : Total currency_le.
Proof. intros b1 b2. unfold currency_le. apply (total String.le). Qed.

#[global] Instance currency_le_trans : Transitive currency_le.
Proof. intros b1 b2 b3. unfold currency_le. apply (transitivity (R:=String.le)). Qed.

Lemma snapshot_source_nil db account :
  (∀ cur, balances db !! (account, cur) = None) →
  snapshot_source db account = [].
Proof.
  intros Hnone.
  destruct (snapshot_source db account) as [| b bs] eqn:Hbs; [done |].
  assert (b ∈ snapshot_source db account) as Hb
    by (rewrite Hbs; apply list_elem_of_here).
  apply elem_of_snapshot_source in Hb as (cur & row & Hrow & _).
  by rewrite Hnone in Hrow.
Qed.


(** ** [getBalanceHistory] *)

(** [ORDER BY created_at DESC]. *)
Definition newest_first (o1 o2 : BalanceOperation) : Prop :=
  op_createdAt o2 ≤ op_createdAt o1.

#[global] Instance newest_first_dec : RelDecision newest_first.
Proof. intros o1 o2. unfold newest_first. apply _. Defined.

#[global] Instance newest_first_total : Total newest_first.
Proof. intros o1 o2. unfold newest_first. lia. Qed.

#[global] Instance newest_first_trans : Transitive newest_first.
Proof. intros o1 o2 o3. unfold newest_first. lia. Qed.

(** The [WHERE] clause of the history query: [account_id = $1], and
    [currency = $2] when a currency was appended to the query. *)
Definition history_match (account : string) (cur : option string)
    (op : BalanceOperation) : Prop :=
  op_accountId op = account ∧
  match cur with
  | Some c => op_currency op = c
  | None => True
  end.

#[global] Instance history_match_dec account cur op :
  Decision (history_match account cur op).
Proof. unfold history_match. destruct cur; apply _. Defined.

(** [SELECT * FROM balance_operations WHERE account_id = $1
    [AND currency = $2] ORDER BY created_at DESC LIMIT $n OFFSET $m].
    The order among records of equal [created_at], which the query
    leaves open, is the one the sort below happens to give. *)
Definition select_operations (account : string) (cur : option string)
    (limit offset : nat) (db : Database)
  : list BalanceOperation * Database :=
  (take limit
     (drop offset
        (merge_sort newest_first
           (filter (history_match account cur) (balance_operations db)))),
   db).

(** [getBalanceHistory(accountId, currency?, limit = 50, offset = 0)]:
    an absent or empty [currency] adds no filter; [limit] and [offset]
    are natural numbers here (storage rejects others).
    [mapRowToBalanceOperation] only renames the columns. *)
Definition getBalanceHistory (account : string) (currency : option string)
    (limit offset : option nat) : Tx (list BalanceOperation) :=
  let cur := match currency with
             | Some c => if decide (c = "") then None else Some c
             | None => None
             end in
  query (select_operations account cur (default 50%nat limit)
           (default 0%nat offset)).

Lemma getBalanceHistory_returns account currency limit offset faults n db
    page s :
  getBalanceHistory account currency limit offset faults (n, db)
    = inr (page, s) →
  s = (S n, db) ∧
  page = (select_operations account
            match currency with
            | Some c => if decide (c = "") then None else Some c
            | None => None
            end (default 50%nat limit) (default 0%nat offset) db).1.
Proof.
  unfold getBalanceHistory, query. destruct (faults n); [done |].
  cbn. by intros [= <- <-].
Qed.

(** X15.  A page [getBalanceHistory] returns has at most [limit]
    records (50 when no limit is given); each of them is a stored
    operation record of the account asked for, and of the currency
    asked for when one is given and not empty; they come newest first;
    and the call changes nothing. *)
Theorem X15_history_page_is_bounded_and_sorted
    account currency limit offset faults n db page s :
  getBalanceHistory account currency limit offset faults (n, db)
    = inr (page, s) →
  s = (S n, db) ∧
  (length page ≤ default 50 limit)%nat ∧
  (∀ op, op ∈ page →
         op ∈ balance_operations db ∧
         op_accountId op = account ∧
         (∀ c, currency = Some c → c ≠ "" → op_currency op = c)) ∧
  StronglySorted newest_first page.
Proof.
  intros [-> ->]%getBalanceHistory_returns. cbn [fst select_operations].
  set (cur := match currency with
              | Some c => if decide (c = "") then None else Some c
              | None => None
              end).
  set (sorted := merge_sort newest_first
                   (filter (history_match account cur)
                      (balance_operations db))).
  split; [done |]. split; [rewrite length_take; lia |]. split.
  - intros op Hop.
    assert (op ∈ sorted) as Hin.
    { by apply (subseteq_drop (default 0%nat offset)),
        (subseteq_take (default 50%nat limit)). }
    unfold sorted in Hin. rewrite merge_sort_Permutation in Hin.
    apply list_elem_of_filter in Hin as [[Hacc Hcur] Hin].
    split; [done |]. split; [done |].
    intros c -> Hc. subst cur. cbn in Hcur. by rewrite decide_False in Hcur.
  - assert (StronglySorted newest_first sorted) as Hsorted
      by (apply StronglySorted_merge_sort; apply _).
    rewrite <- (take_drop (default 0%nat offset) sorted) in Hsorted.
    apply StronglySorted_app_1_r in Hsorted.
    rewrite <- (take_drop (default 50%nat limit) (drop _ sorted)) in Hsorted.
    by apply StronglySorted_app_1_l in Hsorted.
Qed.

(** [k] credits of 1.00000000 to account A, one per time unit. *)
Definition db_after_credits (k : nat) : Database :=
  foldl (λ db i, (updateBalance (Z.of_nat i) no_faults db
                    (update_request "A" credit (1 * units))).1)
    empty_db (seq 0 k).

Lemma X15_history_page_is_bounded_and_sorted_witness :
  ∃ page,
    getBalanceHistory "A" None None None no_faults (0%nat, db_after_credits 60)
      = inr (page, (1%nat, db_after_credits 60)) ∧
    length page = 50%nat ∧
    StronglySorted newest_first page.
Proof.
  eexists. split; [unfold getBalanceHistory; by rewrite query_run |].
  split; [by vm_compute |].
  eapply (X15_history_page_is_bounded_and_sorted "A" None None None
            no_faults 0 (db_after_credits 60)).
  unfold getBalanceHistory. by rewrite query_run.
Defined.

(** X16.  The first page holds the newest records, and a page that is
    large enough holds them all: with no offset, every record of the
    account (and currency) that is left off the page is no newer than
    any record on it; and when [limit] is at least the number of such
    records, the page is a rearrangement of exactly those records, each
    appearing once.  An offset at or beyond their number gives the
    empty page. *)
Theorem X16_history_first_page_is_newest account cur limit offset db :
  let stored := filter (history_match account cur) (balance_operations db) in
  let page := (select_operations account cur limit offset db).1 in
  (offset = 0%nat →
   ∀ op op', op ∈ page → op' ∈ stored → op' ∉ page →
             op_createdAt op' ≤ op_createdAt op) ∧
  (offset = 0%nat → (length stored ≤ limit)%nat → page ≡ₚ stored) ∧
  ((length stored ≤ offset)%nat → page = []).
Proof.
  intros stored page. subst page. cbn [fst select_operations].
  fold stored. set (sorted := merge_sort newest_first stored).
  assert (sorted ≡ₚ stored) as Hperm by apply merge_sort_Permutation.
  assert (StronglySorted newest_first sorted) as Hsorted
    by (apply StronglySorted_merge_sort; apply _).
  split; [| split].
  - intros -> op op' Hop Hop' Hnot. rewrite drop_0 in Hop, Hnot.
    rewrite <- Hperm, <- (take_drop limit sorted) in Hop'.
    apply elem_of_app in Hop' as [Hop' | Hop']; [done |].
    rewrite <- (take_drop limit sorted) in Hsorted.
    exact (StronglySorted_app_1_elem_of _ _ _ _ _ Hsorted Hop Hop').
  - intros -> Hlen. rewrite drop_0, take_ge; [done |].
    by rewrite Hperm.
  - intros Hlen. rewrite drop_ge; [by rewrite take_nil |].
    by rewrite Hperm.
Qed.

Lemma X16_history_first_page_is_newest_witness :
  (select_operations "A" None 50 0 db_A50_B10).1
    ≡ₚ filter (history_match "A" None) (balance_operations db_A50_B10) ∧
  (select_operations "A" None 50 5 db_A50_B10).1 = [].
Proof.
  destruct (X16_history_first_page_is_newest "A" None 50 0 db_A50_B10)
    as (_ & Hall & _).
  destruct (X16_history_first_page_is_newest "A" None 50 5 db_A50_B10)
    as (_ & _ & Hnone).
  split; [apply Hall | apply Hnone]; first [done | vm_compute; lia].
Defined.

(** ** [createDailySnapshot]: what it writes and what it leaves alone *)

Lemma upsert_snapshot_elsewhere now account b date db s :
  snapshot_key s ≠ (account, currency b, date) →
  s ∈ balance_snapshots (upsert_snapshot now account b date db).2 ↔
  s ∈ balance_snapshots db.
Proof.
  intros Hne. unfold upsert_snapshot. case_bool_decide; cbn.
  - rewrite list_elem_of_fmap. split.
    + intros (s' & -> & Hs'). case_decide as Hkey; [| done].
      destruct Hne. by rewrite <- Hkey.
    + intros Hs. exists s. by rewrite decide_False.
  - rewrite elem_of_app, list_elem_of_singleton. split; [| by left].
    intros [Hs | ->]; [done |]. by destruct Hne.
Qed.

Lemma snapshots_after_elsewhere now account date bs db s :
  snap_accountId s ≠ account ∨ snap_date s ≠ date →
  s ∈ balance_snapshots (snapshots_after now account date bs db) ↔
  s ∈ balance_snapshots db.
Proof.
  intros Hne. revert db. induction bs as [| b bs IH]; intros db; [done |].
  simpl. rewrite IH. apply upsert_snapshot_elsewhere.
  unfold snapshot_key. intros [= ? ? ?]. by destruct Hne.
Qed.

Lemma snapshots_after_nil now account date db :
  snapshots_after now account date [] db = db.
Proof. reflexivity. Qed.

(** X17.  Whatever its outcome, [createDailySnapshot] changes no
    balance and no operation record, and the snapshot rows of other
    accounts and of other dates are after the call exactly those before
    it.  For an account that has no balance it commits, when storage
    does not reject, without changing anything. *)
Theorem X17_snapshot_leaves_the_rest_alone now faults db account date :
  let out := createDailySnapshot now faults db account date in
  balances out.1 = balances db ∧
  balance_operations out.1 = balance_operations db ∧
  (∀ s, snap_accountId s ≠ account ∨ snap_date s ≠ date →
        (s ∈ balance_snapshots out.1 ↔ s ∈ balance_snapshots db)) ∧
  ((∀ cur, balances db !! (account, cur) = None) →
   createDailySnapshot now no_faults db account date = (db, inr tt)).
Proof.
  intros out. subst out.
  assert (∀ d, (createDailySnapshot now faults db account date).1 = d →
            balances d = balances db ∧
            balance_operations d = balance_operations db ∧
            (∀ s, snap_accountId s ≠ account ∨ snap_date s ≠ date →
                  (s ∈ balance_snapshots d ↔ s ∈ balance_snapshots db)))
    as Hframe.
  { pose proof (transaction_rollback
                  (createDailySnapshot_body now account date) faults db)
      as Hback.
    fold (createDailySnapshot now faults db account date) in Hback.
    destruct (createDailySnapshot now faults db account date)
      as [db' [e | u]] eqn:E; intros d <-; cbn [fst] in *.
    - by rewrite (Hback e eq_refl).
    - apply createDailySnapshot_commit in E as ->.
      destruct (snapshots_after_frame now account date
                  (snapshot_source db account) db) as (-> & -> & _).
      split; [done |]. split; [done |].
      intros s Hs. by apply snapshots_after_elsewhere. }
  destruct (Hframe _ eq_refl) as (Hbal & Hops & Hsnaps).
  split; [done |]. split; [done |]. split; [done |].
  intros Hnone. rewrite createDailySnapshot_run.
  by rewrite snapshot_source_nil, snapshots_after_nil.
Qed.

Lemma X17_snapshot_leaves_the_rest_alone_witness :
  createDailySnapshot 5 no_faults empty_db "C" "2024-01-01"
  = (empty_db, inr tt).
Proof.
  apply (X17_snapshot_leaves_the_rest_alone 5 no_faults empty_db "C"
           "2024-01-01").
  intros cur. apply lookup_empty.
Defined.

(** Every snapshot row is the snapshot of a balance that exists. *)
Definition snapshots_backed (db : Database) : Prop :=
  ∀ s, s ∈ balance_snapshots db →
       is_Some (balances db !! (snap_accountId s, snap_currency s)).

Lemma upsert_snapshot_origin now account b date db s :
  s ∈ balance_snapshots (upsert_snapshot now account b date db).2 →
  (∃ s0, s0 ∈ balance_snapshots db ∧
         snap_accountId s = snap_accountId s0 ∧
         snap_currency s = snap_currency s0) ∨
  (snap_accountId s = account ∧ snap_currency s = currency b).
Proof.
  unfold upsert_snapshot. case_bool_decide; cbn.
  - intros (s0 & -> & Hs0)%list_elem_of_fmap. left. exists s0.
    split; [done |]. by case_decide.
  - intros [Hs | ->%list_elem_of_singleton]%elem_of_app; [| by right].
    left. by exists s.
Qed.

Lemma snapshots_after_origin now account date bs db s :
  s ∈ balance_snapshots (snapshots_after now account date bs db) →
  (∃ s0, s0 ∈ balance_snapshots db ∧
         snap_accountId s = snap_accountId s0 ∧
         snap_currency s = snap_currency s0) ∨
  (snap_accountId s = account ∧ ∃ b, b ∈ bs ∧ snap_currency s = currency b).
Proof.
  revert db. induction bs as [| b bs IH]; intros db Hs.
  { left. by exists s. }
  apply IH in Hs as [(s1 & Hs1 & Hacc & Hcur) | (Hacc & b' & Hb' & Hcur)].
  - apply upsert_snapshot_origin in Hs1
      as [(s0 & Hs0 & Hacc0 & Hcur0) | [Hacc0 Hcur0]].
    + left. exists s0. split; [done |]. split; congruence.
    + right. split; [congruence |]. exists b.
      split; [apply list_elem_of_here | congruence].
  - right. split; [done |]. exists b'.
    split; [by apply list_elem_of_further | done].
Qed.

Lemma reachable_snapshots_backed db : reachable db → snapshots_backed db.
Proof.
  revert db. apply reachable_ind_source.
  - by intros s ?%elem_of_nil.
  - intros now db request _ IH s Hs. cbn.
    apply lookup_insert_is_Some'. right. by apply IH.
  - intros now db request _ IH s Hs. cbn.
    apply lookup_insert_is_Some'. right.
    apply lookup_insert_is_Some'. right. by apply IH.
  - intros now db account date _ IH s Hs.
    destruct (snapshots_after_frame now account date
                (snapshot_source db account) db) as (-> & _).
    apply snapshots_after_origin in Hs
      as [(s0 & Hs0 & -> & ->) | (-> & b & Hb & ->)]; [by apply IH |].
    apply elem_of_snapshot_source in Hb as (cur & row & Hrow & ->).
    by eexists.
Qed.

Lemma NoDup_fmap_inj_on {A K} `{EqDecision K} (key : A → K) (l : list A)
    (x y : A) :
  NoDup (key <$> l) → x ∈ l → y ∈ l → key x = key y → x = y.
Proof.
  intros Hnodup Hx Hy Hkey.
  pose proof (filter_key_singleton key l x Hnodup Hx) as Hfilter.
  assert (y ∈ filter (λ z, key z = key x) l) as Hin.
  { apply list_elem_of_filter. by split. }
  rewrite Hfilter in Hin. by apply list_elem_of_singleton in Hin.
Qed.

(** X18.  A committed [createDailySnapshot] in a reachable store leaves
    the account's snapshot of that date up to date and complete,
    whatever the table held before: for every currency in which the
    account has a balance, the rows under (account, currency, date) are
    exactly one row, holding the four amounts the balance has at the
    time of the call and the time of the call; and the account's rows
    of that date cover exactly the currencies in which it has a
    balance, each once. *)
Theorem X18_snapshot_is_current_and_complete
    now faults db account date db' u :
  reachable db →
  createDailySnapshot now faults db account date = (db', inr u) →
  let rows := filter (λ s, snap_accountId s = account ∧ snap_date s = date)
                (balance_snapshots db') in
  (∀ cur row,
     balances db !! (account, cur) = Some row →
     ∃ s, filter (λ s', snapshot_key s' = (account, cur, date))
            (balance_snapshots db') = [s] ∧
          snap_availableBalance s = available_balance row ∧
          snap_pendingBalance s = pending_balance row ∧
          snap_totalBalance s = total_balance row ∧
          snap_reservedBalance s = reserved_balance row ∧
          snap_createdAt s = now) ∧
  NoDup (snap_currency <$> rows) ∧
  (∀ cur, cur ∈ snap_currency <$> rows ↔
          is_Some (balances db !! (account, cur))).
Proof.
  intros Hreach Hrun rows.
  assert (reachable db') as Hreach'.
  { replace db' with (createDailySnapshot now faults db account date).1
      by (by rewrite Hrun). by constructor. }
  pose proof (reachable_snapshots_unique db' Hreach') as Hunique.
  pose proof (reachable_snapshots_backed db' Hreach') as Hbacked.
  apply createDailySnapshot_commit in Hrun. subst db'.
  set (bs := snapshot_source db account) in *.
  set (db' := snapshots_after now account date bs db) in *.
  destruct (snapshots_after_frame now account date bs db) as (Hbal & _).
  fold db' in Hbal.
  assert (∀ cur row,
            balances db !! (account, cur) = Some row →
            ∃ s, s ∈ balance_snapshots db' ∧
                 snapshot_key s = (account, cur, date) ∧
                 captures (mapRowToBalance account cur row) s ∧
                 snap_createdAt s = now) as Hcaptured.
  { intros cur row Hrow.
    apply (snapshots_after_captured now account date bs db
             (mapRowToBalance account cur row)).
    - apply snapshot_source_currencies.
    - apply elem_of_snapshot_source. eauto. }
  split; [| split].
  - intros cur row Hrow.
    destruct (Hcaptured cur row Hrow)
      as (s & Hs & Hkey & (Ha & Hp & Ht & Hr) & Htime).
    exists s. split; [| done]. rewrite <- Hkey.
    by apply filter_key_singleton.
  - apply NoDup_fmap_2_strong.
    + intros s1 s2 [[Ha1 Hd1] Hs1]%list_elem_of_filter
        [[Ha2 Hd2] Hs2]%list_elem_of_filter Hcur.
      apply (NoDup_fmap_inj_on snapshot_key (balance_snapshots db'));
        [done.. |].
      unfold snapshot_key. congruence.
    + apply NoDup_filter. eapply NoDup_fmap_1, Hunique.
  - intros cur. rewrite list_elem_of_fmap. split.
    + intros (s & -> & [[Hacc Hdate] Hs]%list_elem_of_filter).
      rewrite <- Hbal, <- Hacc. by apply Hbacked.
    + intros [row Hrow].
      destruct (Hcaptured cur row Hrow) as (s & Hs & [= Hacc Hcur Hdate] & _).
      exists s. split; [done |]. apply list_elem_of_filter. by split.
Qed.

(** A's snapshot of one day, taken at 50, then again after a credit
    of 25. *)
Definition db_snapshot_stale : Database :=
  (updateBalance 6 no_faults db_snapshot_once
     (update_request "A" credit (25 * units))).1.

Definition db_snapshot_refreshed : Database :=
  (createDailySnapshot 7 no_faults db_snapshot_stale "A" "2024-01-01").1.

Lemma X18_snapshot_is_current_and_complete_witness :
  map snap_availableBalance (balance_snapshots db_snapshot_stale)
    = [50 * units] ∧
  ∃ s, filter (λ s', snapshot_key s' = ("A", "USD", "2024-01-01"))
         (balance_snapshots db_snapshot_refreshed) = [s] ∧
       snap_availableBalance s = 75 * units ∧ snap_createdAt s = 7.
Proof.
  split; [by vm_compute |].
  assert (reachable db_snapshot_stale) as Hreach by repeat constructor.
  assert (createDailySnapshot 7 no_faults db_snapshot_stale "A" "2024-01-01"
          = (db_snapshot_refreshed, inr tt)) as Hrun
    by (vm_compute; reflexivity).
  destruct (X18_snapshot_is_current_and_complete 7 no_faults
              db_snapshot_stale "A" "2024-01-01" db_snapshot_refreshed tt
              Hreach Hrun) as (Hcurrent & _).
  destruct (Hcurrent "USD"
              {| row_id := 0; available_balance := 75 * units;
                 pending_balance := 0; total_balance := 75 * units;
                 reserved_balance := 0; last_updated := 6 |}
              ltac:(vm_compute; reflexivity))
    as (s & Hfilter & Ha & _ & _ & _ & Htime).
  exists s. split; [exact Hfilter |]. split; [exact Ha | exact Htime].
Defined.

(** ** The bulk route of [balanceRoutes]

    [POST /bulk-update] runs [updateBalance] once per element of
    [operations], each call in a transaction of its own, and collects
    the balances returned and the errors thrown.  The elements are
    taken to be well typed (an amount that parses, one of the four
    operation types). *)

From stdpp Require Import pretty.
Open Scope Z_scope.

(** One element of [req.body.operations]. *)
Record BulkOperation := mkBulkOperation {
  bulk_accountId : string;
  bulk_amount : Decimal;
  bulk_currency : string;
  bulk_operationType : OperationType;
  bulk_reference : string;
  bulk_description : option string;
  bulk_metadata : option (gmap string string)
}.

(** The request built for the element at index [i]: an absent or empty
    description becomes [`Bulk ${operationType} operation`], and
    [bulkIndex] is added to (or overrides in) the metadata. *)
Definition bulk_request (i : nat) (operation : BulkOperation)
  : BalanceUpdateRequest :=
  let fallback :=
    "Bulk " +:+ operationType_name (bulk_operationType operation)
    +:+ " operation" in
  {| req_accountId := bulk_accountId operation;
     req_amount := bulk_amount operation;
     req_currency := bulk_currency operation;
     req_operationType := bulk_operationType operation;
     req_reference := bulk_reference operation;
     req_description :=
       match bulk_description operation with
       | Some d => if decide (d = "") then fallback else d
       | None => fallback
       end;
     req_metadata :=
       Some (<["bulkIndex" := pretty i]>
               (default ∅ (bulk_metadata operation))) |}.

(** The body sent back. *)
Inductive BulkResponse :=
| BulkRejected (status : nat) (error : string)
| BulkCompleted (success : bool) (successful failed : nat)
    (results : list (nat * Balance))
    (errors : list (nat * Thrown * BulkOperation))
    (message : string).

(** The [for] loop from index [i] on: the store afterwards, [results]
    and [errors].  [clock] and [faults] give the time and the storage
    faults of the call made for each index. *)
Fixpoint bulk_loop (clock : nat → Timestamp) (faults : nat → Faults)
    (i : nat) (operations : list BulkOperation) (db : Database)
  : Database * list (nat * Balance) * list (nat * Thrown * BulkOperation) :=
  match operations with
  | [] => (db, [], [])
  | operation :: rest =>
      let '(db1, outcome) :=
        updateBalance (clock i) (faults i) db (bulk_request i operation) in
      let '(db2, results, errors) :=
        bulk_loop clock faults (S i) rest db1 in
      match outcome with
      | inr balance => (db2, (i, balance) :: results, errors)
      | inl e => (db2, results, (i, e, operation) :: errors)
      end
  end.

Definition bulk_update (clock : nat → Timestamp) (faults : nat → Faults)
    (db : Database) (operations : list BulkOperation)
  : Database * BulkResponse :=
  if bool_decide (length operations = 0%nat)
  then (db, BulkRejected 400
              "Operations array is required and cannot be empty")
  else if bool_decide (100 < length operations)%nat
  then (db, BulkRejected 400
              "Maximum 100 operations allowed per bulk request")
  else
    let '(db', results, errors) := bulk_loop clock faults 0 operations db in
    (db',
     BulkCompleted (bool_decide (length errors = 0%nat))
       (length results) (length errors) results errors
       ("Bulk operation completed: " +:+ pretty (length results)
        +:+ " successful, " +:+ pretty (length errors) +:+ " failed")).

Lemma evolves_trans db1 db2 db3 :
  evolves db1 db2 → evolves db2 db3 → evolves db1 db3.
Proof. intros H12. induction 1; [done | by constructor..]. Qed.

Lemma bulk_loop_spec clock faults i operations db :
  let out := bulk_loop clock faults i operations db in
  let db' := out.1.1 in
  let results := out.1.2 in
  let errors := out.2 in
  (length results + length errors = length operations)%nat ∧
  results.*1 ++ errors.*1.*1 ≡ₚ seq i (length operations) ∧
  evolves db db' ∧
  (reachable db →
   length (balance_operations db')
   = (length (balance_operations db) + length results)%nat).
Proof.
  revert i db. induction operations as [| operation rest IH]; intros i db.
  { cbn. split; [done |]. split; [done |]. split; [constructor |]. lia. }
  cbn [bulk_loop].
  pose proof (updateBalance_rollback (clock i) (faults i) db
                (bulk_request i operation)) as Hback.
  assert (evolves db (updateBalance (clock i) (faults i) db
                        (bulk_request i operation)).1) as Hstep
    by repeat constructor.
  destruct (updateBalance (clock i) (faults i) db (bulk_request i operation))
    as [db1 [e | b]] eqn:Hrun; cbn [fst snd] in *;
    specialize (IH (S i) db1);
    destruct (bulk_loop clock faults (S i) rest db1)
      as [[db2 results] errors]; cbn [fst snd] in *;
    destruct IH as (Hlen & Hperm & Hev & Hlog).
  - specialize (Hback e eq_refl). subst db1.
    split; [cbn; lia |]. split.
    + cbn. rewrite <- Hperm. by rewrite Permutation_middle.
    + split; [done |]. done.
  - split; [cbn; lia |]. split; [cbn; by rewrite Hperm |].
    split; [by eapply evolves_trans |].
    intros Hreach.
    destruct (updateBalance_commit_log _ _ _ _ _ _ Hreach Hrun)
      as (j & Hlog1 & _).
    rewrite Hlog; [| by eapply evolves_reachable].
    rewrite Hlog1, length_app. cbn. lia.
Qed.

(** X19.  [POST /bulk-update] answers 400 and calls nothing when the
    list is empty or has more than 100 elements.  Otherwise it runs
    every element, whatever happened to the ones before it, and
    answers with one entry per element: each index from 0 to n - 1
    appears exactly once, among the results or among the errors;
    [successful] and [failed] count them and add up to n; and
    [success] is true exactly when there is no error. *)
Theorem X19_bulk_update_accounts_for_every_element clock faults db operations :
  let n := length operations in
  match bulk_update clock faults db operations with
  | (db', BulkRejected status error) =>
      (n = 0 ∨ 100 < n)%nat ∧ status = 400%nat ∧ db' = db
  | (db', BulkCompleted success successful failures results errors message) =>
      (1 ≤ n ≤ 100)%nat ∧
      successful = length results ∧ failures = length errors ∧
      (successful + failures = n)%nat ∧
      results.*1 ++ errors.*1.*1 ≡ₚ seq 0 n ∧
      (success = true ↔ failures = 0%nat)
  end.
Proof.
  intros n. unfold bulk_update. fold n.
  case_bool_decide as Hempty; [auto with lia |].
  case_bool_decide as Hmany; [auto with lia |].
  destruct (bulk_loop_spec clock faults 0 operations db)
    as (Hlen & Hperm & _).
  destruct (bulk_loop clock faults 0 operations db)
    as [[db' results] errors]. cbn [fst snd] in *.
  split; [lia |]. split; [done |]. split; [done |]. split; [done |].
  split; [done |]. by rewrite bool_decide_eq_true.
Qed.

(** X20.  [POST /bulk-update] is not all-or-nothing, and does nothing
    the single operations could not do: the store it leaves is one that
    a sequence of calls of the service leads to from the store before,
    so a failing element undoes only itself; and from a reachable
    store the operation log grows by exactly one record per successful
    element and by none per failed one. *)
Theorem X20_bulk_update_commits_element_by_element
    clock faults db operations db' success successful failures results
    errors message :
  reachable db →
  bulk_update clock faults db operations
  = (db', BulkCompleted success successful failures results errors message) →
  evolves db db' ∧ reachable db' ∧
  length (balance_operations db')
  = (length (balance_operations db) + successful)%nat.
Proof.
  intros Hreach. unfold bulk_update.
  case_bool_decide; [done |]. case_bool_decide; [done |].
  destruct (bulk_loop_spec clock faults 0 operations db)
    as (_ & _ & Hev & Hlog).
  destruct (bulk_loop clock faults 0 operations db)
    as [[d rs] es]. cbn [fst snd] in *.
  intros [= -> _ <- _ _ _ _].
  split; [done |]. split; [by eapply evolves_reachable | auto].
Qed.

Definition bulk_item (type : OperationType) (amount : Decimal)
  : BulkOperation :=
  {| bulk_accountId := "A"; bulk_amount := amount; bulk_currency := "USD";
     bulk_operationType := type; bulk_reference := "ref";
     bulk_description := None; bulk_metadata := None |}.

(** Credit 50, debit 80 (refused), credit 10. *)
Definition bulk_sample : list BulkOperation :=
  [bulk_item credit (50 * units); bulk_item debit (80 * units);
   bulk_item credit (10 * units)].

Definition bulk_sample_out : Database * BulkResponse :=
  bulk_update (λ i, Z.of_nat i) (λ _, no_faults) empty_db bulk_sample.

Lemma X20_bulk_update_commits_element_by_element_witness :
  available bulk_sample_out.1 "A" "USD" = 60 * units ∧
  length (balance_operations bulk_sample_out.1) = 2%nat ∧
  ∃ results errors message,
    bulk_sample_out.2 = BulkCompleted false 2 1 results errors message ∧
    errors.*1 = [(1%nat, Error "Insufficient available balance")].
Proof.
  split; [by vm_compute |].
  assert (∃ results errors message,
            bulk_sample_out
            = (bulk_sample_out.1,
               BulkCompleted false 2 1 results errors message) ∧
            errors.*1 = [(1%nat, Error "Insufficient available balance")])
    as (results & errors & message & Hrun & Herrors).
  { do 3 eexists. split; vm_compute; reflexivity. }
  destruct (X20_bulk_update_commits_element_by_element _ _ _ _ _ _ _ _ _ _ _
              reachable_empty Hrun) as (_ & _ & Hlog).
  split; [exact Hlog |].
  exists results, errors, message. split; [by rewrite Hrun | exact Herrors].
Defined.

(** ** The history route of [balanceRoutes] *)

(** The body [GET /:accountId/history] sends back. *)
Record HistoryResponse := mkHistoryResponse {
  history_data : list BalanceOperation;
  history_count : nat;
  pagination_limit : nat;
  pagination_offset : nat;
  pagination_hasMore : bool
}.

(** [parseInt(req.query.limit) || 50] and
    [parseInt(req.query.offset) || 0], on what [parseInt] gives:
    [None] stands for [NaN]; zero is falsy too.  Negative numbers are
    left out, as in [getBalanceHistory]. *)
Definition parsed_or (fallback : nat) (parsed : option nat) : nat :=
  match parsed with
  | Some (S k) => S k
  | _ => fallback
  end.

(** The handler: the page, or the error it answers 500 with. *)
Definition history_route (faults : Faults) (db : Database) (account : string)
    (currency : option string) (limit offset : option nat)
  : Thrown + HistoryResponse :=
  let limit := parsed_or 50 limit in
  let offset := parsed_or 0 offset in
  match getBalanceHistory account currency (Some limit) (Some offset) faults
          (0%nat, db) with
  | inl e => inl e
  | inr (history, _) =>
      inr {| history_data := history; history_count := length history;
             pagination_limit := limit; pagination_offset := offset;
             pagination_hasMore := bool_decide (length history = limit) |}
  end.

(** X21.  The page the history handler answers with never has a limit of
    zero (an absent, unreadable or zero limit becomes 50), holds at
    most [limit] records, and reports their number as [count].  When it
    reports [hasMore = false], the page that follows it (offset raised
    by the limit) is empty. *)
Theorem X21_history_route_last_page
    faults db account currency limit offset response :
  history_route faults db account currency limit offset = inr response →
  (1 ≤ pagination_limit response)%nat ∧
  history_count response = length (history_data response) ∧
  (history_count response ≤ pagination_limit response)%nat ∧
  (pagination_hasMore response = false →
   ∃ next,
     history_route no_faults db account currency (Some (pagination_limit response))
       (Some (pagination_offset response + pagination_limit response)%nat)
     = inr next ∧
     history_data next = []).
Proof.
  unfold history_route.
  set (l := parsed_or 50 limit). set (o := parsed_or 0 offset).
  assert (1 ≤ l)%nat as Hl.
  { subst l. unfold parsed_or. destruct limit as [[| k] |]; lia. }
  destruct (getBalanceHistory account currency (Some l) (Some o) faults
              (0%nat, db)) as [e | [page s]] eqn:Hrun; [done |].
  apply getBalanceHistory_returns in Hrun as [-> ->].
  intros [= <-]. cbn [pagination_limit history_count history_data
                       pagination_hasMore pagination_offset default
                       from_option id select_operations fst].
  set (cur := match currency with
              | Some c => if decide (c = "") then None else Some c
              | None => None
              end).
  set (sorted := merge_sort newest_first
                   (filter (history_match account cur)
                      (balance_operations db))).
  split; [done |]. split; [done |]. split; [rewrite length_take; lia |].
  intros Hmore%bool_decide_eq_false.
  rewrite length_take, length_drop in Hmore.
  assert (parsed_or 50 (Some l) = l) as ->.
  { unfold parsed_or. destruct l; [lia | done]. }
  unfold getBalanceHistory. rewrite query_run. fold cur.
  eexists. split; [reflexivity |].
  cbn [history_data select_operations fst default from_option id].
  fold sorted. rewrite drop_ge; [by rewrite take_nil |].
  unfold parsed_or. destruct (o + l)%nat eqn:Hsum; lia.
Qed.

Lemma X21_history_route_last_page_witness :
  ∃ response,
    history_route no_faults db_A50_B10 "A" (Some "USD") None None
      = inr response ∧
    history_count response = 1%nat ∧
    pagination_limit response = 50%nat ∧
    pagination_hasMore response = false.
Proof.
  eexists. split; [vm_compute; reflexivity |].
  split; [| by vm_compute].
  eapply (X21_history_route_last_page no_faults db_A50_B10 "A" (Some "USD")
            None None).
  vm_compute. reflexivity.
Defined.
